(** * Verification of lmql/models/lmtp/lmtp_scheduler.py

    A shallow embedding of the LMTP scheduler: the call and batch records,
    batch assembly ([GenerateBatch.from_calls], [Scheduler.batches]), the two
    streamers, the batch processing loop with its exception handling, the
    scheduler registry ([instance], [unregister], [dealloc], [gc]) and the
    [SCORE] branch of [TokenSession.handle].

    Conventions of the embedding:
    - Python values held in a [kwargs] or [model_args] dict are [pyval];
      a float is kept as a decimal [m * 10^-k] (the scheduler takes its
      [str] and truthiness, compares it in [max()] and adds an int to it;
      these are computed on the decimal value).
    - A Python dict is an association list in insertion order with distinct
      keys, updated the way CPython updates it (an existing key keeps its
      position, a new key goes to the end).
    - Log-probabilities coming from the backend are floats that the
      scheduler only copies and compares; they are kept as [Z].
    - Python exceptions are the constructors of [exn]; a fallible function
      returns [result A]. *)

From Stdlib Require Import List String Ascii ZArith NArith Lia Bool Permutation Sorted.
From Stdlib Require QArith.
Import ListNotations.
Open Scope list_scope.
Open Scope string_scope.

(** ** Python values and exceptions *)

Inductive pyval :=
| VNone
| VBool (b : bool)
| VInt (z : Z)
| VFloat (m : Z) (k : nat)   (* the float m * 10^-k *)
| VStr (s : string).

(** Truthiness of a value, as in [if v:] or [any(...)]. *)
Definition truthy (v : pyval) : bool :=
  match v with
  | VNone => false
  | VBool b => b
  | VInt z => negb (Z.eqb z 0)
  | VFloat m _ => negb (Z.eqb m 0)
  | VStr s => negb (String.eqb s "")
  end.

Inductive exn :=
| InterruptedError (msg : string)
| AssertionError (msg : string)
| KeyError
| AttributeError (msg : string)
| TypeError
| IndexError
| ValueError (msg : string)
| LMTPCannotLoadModelByPolicy (msg : string)
| BackendError (msg : string).   (* any other Exception raised by a backend *)

(** [str(e)] *)
Definition exn_str (e : exn) : string :=
  match e with
  | InterruptedError m | AssertionError m | AttributeError m
  | ValueError m | LMTPCannotLoadModelByPolicy m | BackendError m => m
  | KeyError | TypeError | IndexError => ""
  end.

Inductive result (A : Type) :=
| Ok (a : A)
| Err (e : exn).
Arguments Ok {A} a.
Arguments Err {A} e.

Definition bind {A B} (r : result A) (f : A -> result B) : result B :=
  match r with Ok a => f a | Err e => Err e end.
Notation "x <- r ;; k" := (bind r (fun x => k))
  (at level 61, r at next level, right associativity).

(** ** Decimal rendering, for [str] of ints and floats *)

Definition digit_char (d : N) : ascii := ascii_of_N (48 + d).

Fixpoint digits_acc (fuel : nat) (n : N) (acc : string) : string :=
  match fuel with
  | O => acc
  | S f =>
      let acc' := String (digit_char (N.modulo n 10)) acc in
      if N.ltb n 10 then acc' else digits_acc f (N.div n 10) acc'
  end.

Definition N_repr (n : N) : string := digits_acc (S (N.size_nat n)) n "".

Definition Z_repr (z : Z) : string :=
  if Z.ltb z 0 then "-" ++ N_repr (Z.to_N (- z)) else N_repr (Z.to_N z).

Fixpoint left_pad_zeros (k : nat) (s : string) : string :=
  match k with
  | O => s
  | S k' => if Nat.leb (S k') (String.length s) then s
            else String "0" (left_pad_zeros k' s)
  end.

Fixpoint strip_trailing_zeros (l : list ascii) : list ascii :=
  match l with
  | [] => []
  | c :: l' =>
      match strip_trailing_zeros l' with
      | [] => if Ascii.eqb c "0"%char then [] else [c]
      | r => c :: r
      end
  end.

(** [str(x)] of a float [m * 10^-k] in positional notation ("0.0", "0.7",
    "-1.25"); CPython switches to exponent notation outside
    [1e-4 <= |x| < 1e16], which is not rendered here. *)
Definition float_repr (m : Z) (k : nat) : string :=
  let a := Z.to_N (Z.abs m) in
  let p := N.pow 10 (N.of_nat k) in
  let ip := N.div a p in
  let fp := N.modulo a p in
  let frac := string_of_list_ascii
                (strip_trailing_zeros
                   (list_ascii_of_string (left_pad_zeros k (N_repr fp)))) in
  (if Z.ltb m 0 then "-" else "") ++ N_repr ip ++ "."
    ++ (if String.eqb frac "" then "0" else frac).

(** [str(v)], as used by ["{}-{}".format(k, v)]. *)
Definition py_str (v : pyval) : string :=
  match v with
  | VNone => "None"
  | VBool true => "True"
  | VBool false => "False"
  | VInt z => Z_repr z
  | VFloat m k => float_repr m k
  | VStr s => s
  end.

(** ** Dicts *)

Definition pydict := list (string * pyval).

Fixpoint dict_find (d : pydict) (k : string) : option pyval :=
  match d with
  | [] => None
  | (k', v) :: d' => if String.eqb k k' then Some v else dict_find d' k
  end.

(** [d.get(k, default)] *)
Definition dict_get (d : pydict) (k : string) (default : pyval) : pyval :=
  match dict_find d k with Some v => v | None => default end.

(** [d.pop(k, None)] on a copy: the dict without key [k]. *)
Definition dict_pop (d : pydict) (k : string) : pydict :=
  filter (fun kv => negb (String.eqb (fst kv) k)) d.

(** [d[k] = v] *)
Fixpoint dict_set (d : pydict) (k : string) (v : pyval) : pydict :=
  match d with
  | [] => [(k, v)]
  | (k', v') :: d' =>
      if String.eqb k k' then (k', v) :: d' else (k', v') :: dict_set d' k v
  end.

(** [d.setdefault(k, v)] *)
Definition dict_setdefault (d : pydict) (k : string) (v : pyval) : pydict :=
  match dict_find d k with Some _ => d | None => (d ++ [(k, v)])%list end.

Fixpoint insert_item (kv : string * pyval) (l : pydict) : pydict :=
  match l with
  | [] => [kv]
  | kv' :: l' => if String.leb (fst kv) (fst kv') then kv :: l
                 else kv' :: insert_item kv l'
  end.

(** [sorted(d.items())]: keys are distinct, so items compare by key. *)
Definition sorted_items (d : pydict) : pydict := fold_right insert_item [] d.

(** ** Calls and batches *)

(** [GenerateCall]. The result queue is named by an index into the store
    of queues (several calls of one session share one queue). *)
Record GenerateCall := mkGenerateCall {
  prompt : list Z;
  logit_bias : option (list (Z * Z));   (* None is Python None *)
  kwargs : pydict;
  stream_id : Z;
  result_queue : nat;
  cancelled : bool
}.

(** [GenerateCall.generation_mode] *)
Definition generation_mode (c : GenerateCall) : string :=
  let is_score := dict_get (kwargs c) "score" (VBool false) in
  if truthy is_score then "score"
  else
    let key_args := dict_pop (kwargs c) "max_tokens" in
    let key_args := dict_pop key_args "top_logprobs" in
    let key_args := dict_setdefault key_args "temperature" (VFloat 0 1) in
    "generate-" ++ String.concat "-"
      (map (fun kv => fst kv ++ "-" ++ py_str (snd kv)) (sorted_items key_args)).

(** [GenerateBatch] ([kwargs] of the batch is [batch_kwargs]). *)
Record GenerateBatch := mkGenerateBatch {
  input_ids : list (list Z);
  attention_mask : list (list Z);
  temperature : pyval;
  max_tokens : pyval;
  logit_biases : list (list (Z * Z));
  calls : list GenerateCall;
  is_score : bool;
  scoring_offsets : option (list pyval);
  batch_kwargs : pydict
}.

Definition list_max (l : list nat) : nat := fold_right Nat.max 0 l.

(** [operator.index(v)]: the integer a value stands for as a slice bound
    or an index ([bool] is an [int]); any other value raises [TypeError]. *)
Definition py_index_value (v : pyval) : result Z :=
  match v with
  | VInt z => Ok z
  | VBool b => Ok (if b then 1%Z else 0%Z)
  | _ => Err TypeError
  end.

(** The number a [bool], [int] or [float] stands for; [None] if the value
    is not a number. *)
Definition num_q (v : pyval) : option QArith_base.Q :=
  match v with
  | VBool b => Some (QArith_base.inject_Z (if b then 1 else 0))
  | VInt z => Some (QArith_base.inject_Z z)
  | VFloat m k => Some (QArith_base.Qmake m (Z.to_pos (10 ^ Z.of_nat k)))
  | _ => None
  end.

(** [x > y]: numbers compare by value (an [int] with a [float] too),
    strings lexicographically; any other pair raises [TypeError]. *)
Definition py_gt (x y : pyval) : result bool :=
  match num_q x, num_q y with
  | Some a, Some b =>
      Ok (match QArith_base.Qcompare a b with Gt => true | _ => false end)
  | _, _ =>
      match x, y with
      | VStr s1, VStr s2 => Ok (match String.compare s1 s2 with Gt => true | _ => false end)
      | _, _ => Err TypeError
      end
  end.

Fixpoint map_result {A B} (f : A -> result B) (l : list A) : result (list B) :=
  match l with
  | [] => Ok []
  | x :: l' => y <- f x ;; ys <- map_result f l' ;; Ok (y :: ys)
  end.

(** The loop of CPython's [max(iterable)]: the running maximum [m] is
    replaced by the next item [x] when [x > m]. *)
Fixpoint py_max_from (m : pyval) (l : list pyval) : result pyval :=
  match l with
  | [] => Ok m
  | x :: l' => gt <- py_gt x m ;; py_max_from (if gt then x else m) l'
  end.

(** [max(iterable)]: the first item when there is only one (it is never
    compared); [ValueError] on an empty iterable. *)
Definition py_max (l : list pyval) : result pyval :=
  match l with
  | [] => Err (ValueError "max() arg is an empty sequence")
  | v :: l' => py_max_from v l'
  end.

(** [v + n] for a Python int [n]: an int (or bool) gives an int, a float a
    float; any other value raises [TypeError]. *)
Definition py_add_int (v : pyval) (n : Z) : result pyval :=
  match v with
  | VBool b => Ok (VInt ((if b then 1 else 0) + n))
  | VInt z => Ok (VInt (z + n))
  | VFloat m k => Ok (VFloat (m + n * 10 ^ Z.of_nat k) k)
  | _ => Err TypeError
  end.

(** [c.logit_bias or {}] *)
Definition or_empty (lb : option (list (Z * Z))) : list (Z * Z) :=
  match lb with Some l => l | None => [] end.

Definition call_is_score (c : GenerateCall) : bool :=
  truthy (dict_get (kwargs c) "score" (VBool false)).

(** [GenerateBatch.from_calls] *)
Definition from_calls (cs : list GenerateCall) : result GenerateBatch :=
  match cs with
  | [] => Err (ValueError "max() arg is an empty sequence")
  | c0 :: _ =>
    let ids := map prompt cs in
    let max_len := list_max (map (@List.length Z) ids) in
    let attention_mask :=
      map (fun ids => (repeat 0%Z (max_len - List.length ids) ++ repeat 1%Z (List.length ids))%list) ids in
    let input_ids := map (fun ids => (repeat 0%Z (max_len - List.length ids) ++ ids)%list) ids in
    let temperature := dict_get (kwargs c0) "temperature" (VFloat 0 1) in
    max_tokens <- py_max (map (fun c => dict_get (kwargs c) "max_tokens" (VInt 32)) cs) ;;
    let logit_biases := map (fun c => or_empty (logit_bias c)) cs in
    let is_score := existsb call_is_score cs in
    if negb (negb is_score || forallb call_is_score cs)
    then Err (AssertionError "cannot mix score and non-score calls in batch")
    else
    scoring_offsets <-
      (if is_score then
         offs <- map_result (fun c =>
                   let padding := max_len - List.length (prompt c) in
                   py_add_int (dict_get (kwargs c) "scoring_offset" (VInt 0)) (Z.of_nat padding)) cs ;;
         Ok (Some offs)
       else Ok None) ;;
    let kw := dict_pop (dict_pop (dict_pop (kwargs c0) "max_tokens") "top_logprobs") "temperature" in
    Ok (mkGenerateBatch input_ids attention_mask temperature max_tokens
          logit_biases cs is_score scoring_offsets kw)
  end.

(** [GenerateBatch.cancelled] *)
Definition batch_cancelled (b : GenerateBatch) : bool :=
  negb (existsb (fun c => negb (cancelled c)) (calls b)).

(** ** Batch assembly in the scheduler *)

(** [batches_by_mode.setdefault(mode, []).append(c)] on a dict from modes
    to lists of calls, kept in insertion order. *)
Fixpoint group_append (m : list (string * list GenerateCall)) (k : string)
    (c : GenerateCall) : list (string * list GenerateCall) :=
  match m with
  | [] => [(k, [c])]
  | (k', l) :: m' =>
      if String.eqb k k' then (k', l ++ [c])%list :: m'
      else (k', l) :: group_append m' k c
  end.

Definition group_by_mode (cs : list GenerateCall) : list (string * list GenerateCall) :=
  fold_left (fun m c => group_append m (generation_mode c) c) cs [].

(** [[l[i:i+n] for i in range(0, len(l), n)]] for [n > 0]. *)
Fixpoint chunks_fuel {A} (fuel n : nat) (l : list A) : list (list A) :=
  match fuel with
  | O => []
  | S f => match l with
           | [] => []
           | _ => firstn n l :: chunks_fuel f n (skipn n l)
           end
  end.

Definition chunks {A} (n : nat) (l : list A) : list (list A) :=
  chunks_fuel (List.length l) n l.

(** [Scheduler.batches]: the calls drained from the queue in the 0.1 s
    window (a prefix of the queue, in queue order) are grouped by
    generation mode and groups longer than [max_batch_size] are split.
    [range] with step 0 raises [ValueError]. *)
Definition split_group (max_batch_size : nat) (g : list GenerateCall)
    : result (list (list GenerateCall)) :=
  if Nat.ltb max_batch_size (List.length g) then
    (if Nat.eqb max_batch_size 0 then Err (ValueError "range() arg 3 must not be zero")
     else Ok (chunks max_batch_size g))
  else Ok [g].

Definition batches (max_batch_size : nat) (drained : list GenerateCall)
    : result (list (list GenerateCall)) :=
  gs <- map_result (fun mg => split_group max_batch_size (snd mg)) (group_by_mode drained) ;;
  Ok (List.concat gs).

(** ** Indexing and slicing *)

(** [l[i]] for a non-negative Python int [i]. *)
Definition nth_idx {A} (l : list A) (i : nat) : result A :=
  match nth_error l i with Some x => Ok x | None => Err IndexError end.

(** [l[z]] for a Python int [z], negative indices counting from the end. *)
Definition py_index {A} (l : list A) (z : Z) : result A :=
  if Z.ltb z 0 then
    (if Z.ltb (Z.of_nat (List.length l) + z) 0 then Err IndexError
     else nth_idx l (Z.to_nat (Z.of_nat (List.length l) + z)))
  else nth_idx l (Z.to_nat z).

(** [l[-1]] *)
Definition py_last {A} (l : list A) : result A := py_index l (-1).

(** [l[z:]] *)
Definition py_slice_from {A} (l : list A) (z : Z) : list A :=
  if Z.ltb z 0 then skipn (Z.to_nat (Z.max 0 (Z.of_nat (List.length l) + z))) l
  else skipn (Z.to_nat z) l.

(** [l[:v]] for a value [v] taken from a kwargs dict ([l[:None]] is the
    whole of [l]). *)
Definition py_slice_upto {A} (l : list A) (v : pyval) : result (list A) :=
  match v with VNone => Ok l | _ =>
  z <- py_index_value v ;;
  Ok (if Z.ltb z 0 then firstn (Z.to_nat (Z.max 0 (Z.of_nat (List.length l) + z))) l
      else firstn (Z.to_nat z) l)
  end.

(** ** Token payloads and result queues *)

Inductive finish_reason := FinishNone | FinishStop | FinishLength.

Record TokenPayload := mkTokenPayload {
  pl_token : Z;
  pl_stream_id : Z;
  pl_logprob : Z;
  pl_finish_reason : finish_reason;
  pl_top_logprobs : option (list (Z * Z))   (* None: the key is absent *)
}.

(** What a call puts on its result queue: [("TOKEN", payload)] from
    [GenerateCall.put] or [("TOKEN", {stream_id, error})] from
    [GenerateCall.error]. *)
Inductive msg :=
| MToken (p : TokenPayload)
| MError (sid : Z) (m : string).

(** A put on the result queue numbered [fst]. *)
Definition event := (nat * msg)%type.

(** [GenerateCall.put] *)
Definition call_put (c : GenerateCall) (p : TokenPayload) : event :=
  (result_queue c, MToken p).

(** [GenerateCall.error] *)
Definition call_error (c : GenerateCall) (m : string) : event :=
  (result_queue c, MError (stream_id c) m).

(** A [for i in range(batch_size)] loop whose body puts the events
    [body i]; an exception in a body ends the loop after the puts of the
    earlier iterations. *)
Fixpoint run_rows (body : nat -> result (list event)) (rows : list nat)
    : list event * option exn :=
  match rows with
  | [] => ([], None)
  | i :: rs =>
      match body i with
      | Err e => ([], Some e)
      | Ok evs => let (evs', oe) := run_rows body rs in ((evs ++ evs')%list, oe)
      end
  end.

(** ** ScoreStreamer *)

(** One iteration of the row loop of [ScoreStreamer.log_token]. *)
Definition score_row (b : GenerateBatch) (all_scores : list (list Z)) (i : nat)
    : result (list event) :=
  offs <- (match scoring_offsets b with Some o => Ok o | None => Err TypeError end) ;;
  offv <- nth_idx offs i ;;
  srow <- nth_idx all_scores i ;;
  offset <- py_index_value offv ;;
  let scores := py_slice_from srow offset in
  irow <- nth_idx (input_ids b) i ;;
  let scored_ids := py_slice_from irow offset in
  c <- nth_idx (calls b) i ;;
  Ok (map (fun '(j, (score, token)) =>
             call_put c (mkTokenPayload token (stream_id c) score
                           (if Nat.eqb j (List.length scores - 1) then FinishStop else FinishNone)
                           None))
          (combine (seq 0 (List.length (combine scores scored_ids))) (combine scores scored_ids))).

(** [ScoreStreamer.log_token]: [all_scores] is the [N x L] score matrix. *)
Definition score_log_token (b : GenerateBatch) (all_scores : list (list Z))
    : list event * option exn :=
  run_rows (score_row b all_scores) (seq 0 (List.length all_scores)).

(** ** TokenStreamer *)

Fixpoint zdict_set (d : list (Z * Z)) (k v : Z) : list (Z * Z) :=
  match d with
  | [] => [(k, v)]
  | (k', v') :: d' => if Z.eqb k k' then (k', v) :: d' else (k', v') :: zdict_set d' k v
  end.

Fixpoint insert_desc (row : list Z) (i : nat) (l : list nat) : list nat :=
  match l with
  | [] => [i]
  | j :: l' => if Z.leb (nth j row 0%Z) (nth i row 0%Z) then i :: l
               else j :: insert_desc row i l'
  end.

(** Modelled from the spec: [lmql.utils.nputil.topk] (not part of this
    file's sources), "a top-k selection over each row's vocab
    distribution", [sorted=True]: the [k] largest entries of the row in
    decreasing order (ties by increasing index), returned as the pair
    (values, indices). [k] is taken as a slice bound, so [topk] is applied
    only to an integer [k]: any other value raises [TypeError]. *)
Definition topk_row (k : nat) (row : list Z) : list Z * list Z :=
  let idx := firstn k (fold_right (insert_desc row) [] (seq 0 (List.length row))) in
  (map (fun j => nth j row 0%Z) idx, map Z.of_nat idx).

(** One iteration of the row loop of [TokenStreamer.log_token]. The slices
    [logprobs[:num_top_logprobs]], [tokens[:num_top_logprobs]] are computed
    after [top_logprobs] is built and are not read afterwards. *)
Definition token_row (b : GenerateBatch) (eos_token_id : Z) (last : bool)
    (last_tokens : list Z) (last_scores : list (list Z))
    (tops : list (list Z * list Z)) (i : nat) : result (list event) :=
  top <- nth_idx tops i ;;
  let logprobs := fst top in
  let tokens := snd top in
  tok <- nth_idx last_tokens i ;;
  srow <- nth_idx last_scores i ;;
  token_score <- py_index srow tok ;;
  let inner := fold_left (fun d lt => zdict_set d (snd lt) (fst lt)) (combine logprobs tokens) [] in
  let top_logprobs := fold_left (fun d kv => zdict_set d (fst kv) (snd kv)) inner [(tok, token_score)] in
  c <- nth_idx (calls b) i ;;
  let num_top_logprobs := dict_get (kwargs c) "top_logprobs" (VInt 1) in
  _ <- py_slice_upto logprobs num_top_logprobs ;;
  _ <- py_slice_upto tokens num_top_logprobs ;;
  let payload := mkTokenPayload tok (stream_id c) token_score
                   (if Z.eqb tok eos_token_id then FinishStop
                    else if last then FinishLength else FinishNone)
                   (Some top_logprobs) in
  Ok [call_put c payload].

(** [TokenStreamer.log_token(input_ids, scores, last)] for a streamer built
    with [cancels]: [input_ids_rows] are the sequences so far, [scores] the
    per-step score matrices. [measure_token] only updates throughput
    statistics and prints them; it is not modelled. *)
Definition token_log_token (b : GenerateBatch) (eos_token_id : Z) (cancels : bool)
    (input_ids_rows : list (list Z)) (scores : list (list (list Z))) (last : bool)
    : list event * option exn :=
  let batch_size := List.length input_ids_rows in
  let pre :=
    last_tokens <- map_result py_last input_ids_rows ;;
    last_scores <- py_last scores ;;
    max_num_top_logprobs <-
      py_max (map (fun c => dict_get (kwargs c) "top_logprobs" (VInt 1)) (calls b)) ;;
    if batch_cancelled b && cancels
    then Err (InterruptedError "inference calls cancelled")
    else
      k <- py_index_value max_num_top_logprobs ;;
      Ok (last_tokens, last_scores, map (topk_row (Z.to_nat k)) last_scores) in
  match pre with
  | Err e => ([], Some e)
  | Ok (last_tokens, last_scores, tops) =>
      run_rows (token_row b eos_token_id last last_tokens last_scores tops) (seq 0 batch_size)
  end.

(** ** The SCORE command of TokenSession.handle *)

(** A decoded [SCORE] message: the fields the branch pops ([model],
    [prompt], [scored], [stream_id]) and the remaining entries of its
    [kwargs] dict. *)
Record ScoreCommand := mkScoreCommand {
  sc_model : string;
  sc_prompt : list Z;
  sc_scored : list Z;
  sc_stream_id : Z;
  sc_rest : pydict
}.

(** The call that the [SCORE] branch of [TokenSession.handle] submits with
    [scheduler.put], [output_stream] being the session's queue. (If
    [Scheduler.instance] raises, nothing is submitted.) *)
Definition handle_score_call (cmd : ScoreCommand) (output_stream : nat) : GenerateCall :=
  let kw := dict_set (sc_rest cmd) "score" (VBool true) in
  let full_ids := (sc_prompt cmd ++ sc_scored cmd)%list in
  let kw := dict_set kw "scoring_offset" (VInt (Z.of_nat (List.length (sc_prompt cmd)))) in
  mkGenerateCall full_ids (Some []) kw (sc_stream_id cmd) output_stream false.

(** ** The scheduler registry *)

(** [pickle.dumps] (Python's standard library) at the level of its opcode
    stream: a dict is written as [EMPTY_DICT] followed by its items in
    insertion order ([k v SETITEM] for one item, [MARK k v ... SETITEMS]
    for several). A key's or value's own opcodes are abbreviated as one
    [P_STR] or [P_VAL] opcode; framing and the memo are not modelled. *)
Inductive pickle_op :=
| P_PROTO
| P_NONE
| P_EMPTY_DICT
| P_MARK
| P_STR (s : string)
| P_VAL (v : pyval)
| P_SETITEM
| P_SETITEMS
| P_STOP.

Definition pickle_items (d : pydict) : list pickle_op :=
  match d with
  | [] => []
  | [(k, v)] => [P_STR k; P_VAL v; P_SETITEM]
  | _ => (P_MARK :: flat_map (fun kv => [P_STR (fst kv); P_VAL (snd kv)]) d ++ [P_SETITEMS])%list
  end.

(** [pickle.dumps(model_args)], [None] being Python's [None]. *)
Definition pickle_dumps (model_args : option pydict) : list pickle_op :=
  match model_args with
  | None => [P_PROTO; P_NONE; P_STOP]
  | Some d => (P_PROTO :: P_EMPTY_DICT :: pickle_items d ++ [P_STOP])%list
  end.

(** The registry key [(model_identifier, pickle.dumps(model_args).hex())];
    [.hex()] is injective and is left out. *)
Definition key := (string * list pickle_op)%type.

Definition registry_key (model_identifier : string) (model_args : option pydict) : key :=
  (model_identifier, pickle_dumps model_args).

Definition pyval_eq_dec (x y : pyval) : {x = y} + {x <> y}.
Proof. decide equality; first [apply string_dec | apply Z.eq_dec | apply Nat.eq_dec | apply bool_dec]. Defined.

Definition pickle_op_eq_dec (x y : pickle_op) : {x = y} + {x <> y}.
Proof. decide equality; first [apply string_dec | apply pyval_eq_dec]. Defined.

Definition key_eqb (k k' : key) : bool :=
  if string_dec (fst k) (fst k') then
    if list_eq_dec pickle_op_eq_dec (snd k) (snd k') then true else false
  else false.

(** A [Scheduler] object. Its [queue] is the pending calls, [kill_event]
    the flag of its [threading.Event]; [sync = false] means a worker thread
    was started. Users are ids of [TokenSession] objects. *)
Record Scheduler := mkScheduler {
  model_identifier : string;
  model_args : pydict;
  sync : bool;
  queue : list GenerateCall;
  users : list nat;
  last_use : Z;
  kill_event : bool
}.

(** [Scheduler(model_identifier, model_args, sync)] at time [now]. *)
Definition new_scheduler (model_identifier : string) (model_args : option pydict)
    (sync : bool) (now : Z) : Scheduler :=
  mkScheduler model_identifier
    (match model_args with None => [] | Some d => d end)
    sync [] [] now false.

(** [Scheduler._instances], in insertion order. *)
Definition registry := list (key * Scheduler).

Fixpoint reg_find (r : registry) (k : key) : option Scheduler :=
  match r with
  | [] => None
  | (k', s) :: r' => if key_eqb k k' then Some s else reg_find r' k
  end.

(** [_instances[k] = s] *)
Fixpoint reg_set (r : registry) (k : key) (s : Scheduler) : registry :=
  match r with
  | [] => [(k, s)]
  | (k', s') :: r' => if key_eqb k k' then (k', s) :: r' else (k', s') :: reg_set r' k s
  end.

(** [_instances.pop(k)], raising [KeyError] when [k] is absent. *)
Definition reg_pop (r : registry) (k : key) : result registry :=
  match reg_find r k with
  | Some _ => Ok (filter (fun ks => negb (key_eqb k (fst ks))) r)
  | None => Err KeyError
  end.

(** [s.unregister(user)] at time [now]. *)
Definition unregister (s : Scheduler) (user : nat) (now : Z) : Scheduler :=
  if existsb (Nat.eqb user) (users s) then
    {| model_identifier := model_identifier s; model_args := model_args s;
       sync := sync s; queue := queue s;
       users := filter (fun u => negb (Nat.eqb u user)) (users s);
       last_use := now; kill_event := kill_event s |}
  else s.

(** [self.kill_event.set()] *)
Definition set_kill (s : Scheduler) : Scheduler :=
  {| model_identifier := model_identifier s; model_args := model_args s;
     sync := sync s; queue := queue s; users := users s;
     last_use := last_use s; kill_event := true |}.

(** [s.dealloc()] for the scheduler [s] stored under [k]: the key is
    recomputed from [s]'s own fields and popped, then [s]'s kill event is
    set and its worker thread joined (a [sync] scheduler has no
    [worker_thread] attribute). Mutations made before an exception stay. *)
Definition dealloc (r : registry) (k : key) (s : Scheduler) : registry * option exn :=
  let identifier := registry_key (model_identifier s) (Some (model_args s)) in
  match reg_pop r identifier with
  | Err e => (r, Some e)
  | Ok r' =>
      let r'' := match reg_find r' k with
                 | Some _ => reg_set r' k (set_kill s)
                 | None => r'
                 end in
      if sync s
      then (r'', Some (AttributeError "'Scheduler' object has no attribute 'worker_thread'"))
      else (r'', None)
  end.

Fixpoint gc_loop (r : registry) (not_needed : list key) : registry * option exn :=
  match not_needed with
  | [] => (r, None)
  | k :: ks =>
      match reg_find r k with
      | None => (r, Some KeyError)
      | Some s =>
          match dealloc r k s with
          | (r', Some e) => (r', Some e)
          | (r', None) => gc_loop r' ks
          end
      end
  end.

(** [Scheduler.gc(n)] *)
Definition gc (n : nat) (r : registry) : registry * option exn :=
  let total := List.length r in
  let not_needed := map fst (filter (fun ks => Nat.eqb (List.length (users (snd ks))) 0) r) in
  if Nat.leb n total then gc_loop r not_needed else (r, None).

(** [s.last_use = time.time()] then [s.users.add(user)] unless [user] is
    [None]. *)
Definition touch (s : Scheduler) (user : option nat) (now : Z) : Scheduler :=
  {| model_identifier := model_identifier s; model_args := model_args s;
     sync := sync s; queue := queue s;
     users := match user with
              | Some u => if existsb (Nat.eqb u) (users s) then users s
                          else (users s ++ [u])%list
              | None => users s
              end;
     last_use := now; kill_event := kill_event s |}.

(** [Scheduler.instance(mid, margs, user, only_existing, sync)] at time
    [now]: the registry afterwards, and the key of the returned scheduler or
    the exception raised. *)
Definition instance (r : registry) (mid : string) (margs : option pydict)
    (user : option nat) (only_existing sync : bool) (now : Z)
    : registry * result key :=
  let identifier := registry_key mid margs in
  let r1 := match reg_find r identifier with
            | Some _ => Ok r
            | None =>
                if only_existing
                then Err (LMTPCannotLoadModelByPolicy
                            ("Model '" ++ mid ++ "' is not loaded and server is not configured to load it on demand."))
                else Ok (reg_set r identifier (new_scheduler mid margs sync now))
            end in
  match r1 with
  | Err e => (r, Err e)
  | Ok r1 =>
      let r2 := match reg_find r1 identifier with
                | Some s => reg_set r1 identifier (touch s user now)
                | None => r1
                end in
      match gc 2 r2 with
      | (r3, Some e) => (r3, Err e)
      | (r3, None) => (r3, Ok identifier)
      end
  end.

(** [s.unregister(user)] on the scheduler stored under [k]. *)
Definition unregister_at (r : registry) (k : key) (user : nat) (now : Z) : registry :=
  match reg_find r k with
  | Some s => reg_set r k (unregister s user now)
  | None => r
  end.

(** ** Batch processing *)

(** How [model.generate] runs: the [streamer(input_ids, scores)] calls it
    makes, one per step, then either its result [(sequences, scores)] or
    the exception it raises itself. *)
Inductive gen_outcome :=
| GenDone (sequences : list (list Z)) (scores : list (list (list Z)))
| GenRaise (e : exn).

(** The loaded backend ([LMTPModel]) as the scheduler uses it. An exception
    raised by the streamer inside [generate] propagates out of it. *)
Record Backend := mkBackend {
  max_batch_size : nat;
  eos_token_id : Z;
  cancellable : bool;
  score : list (list Z) -> list (list Z) -> result (list (list Z));
  generate : GenerateBatch ->
             list (list (list Z) * list (list (list Z))) * gen_outcome
}.

Section ProcessBatch.
Variable model : Backend.

Fixpoint stream_steps (b : GenerateBatch)
    (steps : list (list (list Z) * list (list (list Z)))) (outcome : gen_outcome)
    : list event * option exn :=
  match steps with
  | [] =>
      match outcome with
      | GenRaise e => ([], Some e)
      | GenDone seqs scs =>
          token_log_token b (eos_token_id model) (cancellable model) seqs scs true
      end
  | (ids, scs) :: rest =>
      match token_log_token b (eos_token_id model) (cancellable model) ids scs false with
      | (evs, Some e) => (evs, Some e)
      | (evs, None) =>
          let (evs', oe) := stream_steps b rest outcome in ((evs ++ evs')%list, oe)
      end
  end.

(** The body of the [try] in [Scheduler.process_batch] for one batch:
    the events put, then the exception that left the body, if any. *)
Definition batch_body (batch : list GenerateCall) : list event * option exn :=
  match from_calls batch with
  | Err e => ([], Some e)
  | Ok b =>
      if is_score b then
        match score model (input_ids b) (attention_mask b) with
        | Err e => ([], Some e)
        | Ok scores => score_log_token b scores
        end
      else
        let (steps, outcome) := generate model b in
        stream_steps b steps outcome
  end.

(** One iteration of the loop of [Scheduler.process_batch], with its two
    [except] clauses. *)
Definition process_one (batch : list GenerateCall) : list event :=
  let (evs, oe) := batch_body batch in
  (evs ++
   match oe with
   | None => []
   | Some (InterruptedError _) => map (fun c => call_error c "lmtp.cancelled") batch
   | Some e =>
       map (fun c => call_error c ("failed to generate tokens '" ++ exn_str e ++ "'")) batch
   end)%list.

(** [Scheduler.process_batch(model)] on the calls drained from the queue. *)
Definition process_batch (drained : list GenerateCall) : result (list event) :=
  bs <- batches (max_batch_size model) drained ;;
  Ok (flat_map process_one bs).

End ProcessBatch.

(** ** [GenerateBatch.generate_args] *)

(** A value of the [generate_args] dict: a token matrix, the [bias_tensor]
    entry ([None] is Python [None]) or a value of the batch kwargs. *)
Inductive argval :=
| AMatrix (m : list (list Z))
| ABias (b : option (list (list (Z * Z))))
| APy (v : pyval).

Fixpoint adict_find (d : list (string * argval)) (k : string) : option argval :=
  match d with
  | [] => None
  | (k', v) :: d' => if String.eqb k k' then Some v else adict_find d' k
  end.

Fixpoint adict_set (d : list (string * argval)) (k : string) (v : argval)
    : list (string * argval) :=
  match d with
  | [] => [(k, v)]
  | (k', v') :: d' =>
      if String.eqb k k' then (k', v) :: d' else (k', v') :: adict_set d' k v
  end.

(** [GenerateBatch.generate_args]: the five literal entries, then
    [**self.kwargs] merged in order (a key already present keeps its place
    and takes the new value). *)
Definition generate_args (b : GenerateBatch) : list (string * argval) :=
  fold_left (fun d kv => adict_set d (fst kv) (APy (snd kv))) (batch_kwargs b)
    [("input_ids", AMatrix (input_ids b));
     ("attention_mask", AMatrix (attention_mask b));
     ("temperature", APy (temperature b));
     ("max_new_tokens", APy (max_tokens b));
     ("bias_tensor",
        ABias (if Nat.ltb 0 (List.length (logit_biases b)) then Some (logit_biases b) else None))].

(** ** Throughput statistics: [Scheduler.measure_token] *)

(** The statistics fields of a [Scheduler]. Times are [time.time()]
    readings; the float arithmetic of the moving averages is kept exact, as
    rationals; [last_batch_size = None] is a NaN. *)
Record TokenStats := mkTokenStats {
  last_token_times : list QArith_base.Q;
  last_batch_sizes : list nat;
  last_tok_s : QArith_base.Q;
  last_batch_size : option QArith_base.Q
}.

(** The statistics set by [Scheduler.__init__]. *)
Definition init_stats : TokenStats :=
  mkTokenStats [] [] (QArith_base.inject_Z 0) (Some (QArith_base.inject_Z 0)).

(** [l.pop(0)] *)
Definition pop0 {A} (l : list A) : result (list A) :=
  match l with [] => Err IndexError | _ :: l' => Ok l' end.

(** [[v for i, v in enumerate(sizes) if times[i] > time.time() - 1.0]],
    from index [i] on; [clock (S i)] is the [time.time()] read at index
    [i]. *)
Fixpoint recent_samples (times : list QArith_base.Q) (clock : nat -> QArith_base.Q)
    (i : nat) (sizes : list nat) : result (list nat) :=
  match sizes with
  | [] => Ok []
  | v :: vs =>
      t <- nth_idx times i ;;
      rest <- recent_samples times clock (S i) vs ;;
      Ok (if QArith_base.Qle_bool t (QArith_base.Qminus (clock (S i)) (QArith_base.inject_Z 1))
          then rest else v :: rest)
  end.

(** [np.mean] of a list of ints; [None] is the NaN of an empty list. *)
Definition np_mean (l : list nat) : option QArith_base.Q :=
  match l with
  | [] => None
  | _ => Some (QArith_base.Qdiv (QArith_base.inject_Z (Z.of_nat (fold_right Nat.add 0 l)))
                                (QArith_base.inject_Z (Z.of_nat (List.length l))))
  end.

(** [x * 0.9 + y * 0.1] *)
Definition ema (x y : QArith_base.Q) : QArith_base.Q :=
  QArith_base.Qplus (QArith_base.Qmult x (QArith_base.Qmake 9 10))
                    (QArith_base.Qmult y (QArith_base.Qmake 1 10)).

(** [Scheduler.measure_token(batch_size)]; [clock 0] is the [time.time()]
    appended, [clock (S i)] the one read for the [i]-th sample. The final
    [print] is not modelled. *)
Definition measure_token (st : TokenStats) (batch_size : nat) (clock : nat -> QArith_base.Q)
    : result TokenStats :=
  let times := (last_token_times st ++ [clock 0])%list in
  let sizes := (last_batch_sizes st ++ [batch_size])%list in
  ts <- (if Nat.ltb 100 (List.length times)
         then times' <- pop0 times ;; sizes' <- pop0 sizes ;; Ok (times', sizes')
         else Ok (times, sizes)) ;;
  let times := fst ts in
  let sizes := snd ts in
  samples_to_consider <- recent_samples times clock 0 sizes ;;
  let token_in_last_second := fold_right Nat.add 0 samples_to_consider in
  let tok_s := ema (last_tok_s st) (QArith_base.inject_Z (Z.of_nat token_in_last_second)) in
  let avg_batch_size :=
    np_mean (py_slice_from sizes (- Z.of_nat (List.length samples_to_consider))) in
  let bsz := match last_batch_size st, avg_batch_size with
             | Some x, Some a => Some (ema x a)
             | _, _ => None
             end in
  Ok (mkTokenStats times sizes tok_s bsz).

(** ** Consistency of the registry *)

(** A registry entry is consistent when it is stored under the key that
    [dealloc] recomputes from the scheduler's own fields. *)
Definition entry_consistent (ks : key * Scheduler) : bool :=
  key_eqb (fst ks) (registry_key (model_identifier (snd ks)) (Some (model_args (snd ks)))).

Fixpoint keys_distinct (r : registry) : bool :=
  match r with
  | [] => true
  | (k, _) :: r' => negb (existsb (fun ks => key_eqb k (fst ks)) r') && keys_distinct r'
  end.

(** Every entry consistent, no key stored twice. *)
Definition reg_wf (r : registry) : bool := forallb entry_consistent r && keys_distinct r.

(** The entries [gc] lists in [not_needed]. *)
Definition idle (ks : key * Scheduler) : bool := Nat.eqb (List.length (users (snd ks))) 0.

(** ** The model-release loop of [TokenSession.close] *)


(** ** Notions used by the further properties *)

(** The groups built by [group_by_mode] from the calls [cs]. *)
Definition groups_of (cs : list GenerateCall) (M : list (string * list GenerateCall)) : Prop :=
  NoDup (map fst M) /\
  (forall k g, In (k, g) M -> g <> [] /\ forall c, In c g -> generation_mode c = k) /\
  (forall m, List.concat (map snd (filter (fun kg => String.eqb (fst kg) m) M))
             = filter (fun c => String.eqb (generation_mode c) m) cs).

(** The mode of a batch, read off its first call. *)
Definition head_mode_is (m : string) (b : list GenerateCall) : bool :=
  match b with c :: _ => String.eqb (generation_mode c) m | [] => false end.

(** [filter] of the entries whose key is not among [ks]. *)
Definition remove_keys (ks : list key) (r : registry) : registry :=
  filter (fun e => negb (existsb (fun k => key_eqb k (fst e)) ks)) r.

(** No scheduler of the registry is [sync]: each has a worker thread. *)
Definition all_async (r : registry) : bool := forallb (fun e => negb (sync (snd e))) r.


(** The stale-entry condition: [(k, s)] is the first idle entry of [r]. *)
Definition first_idle_at (r : registry) (k : key) (s : Scheduler) : Prop :=
  exists pre post, r = (pre ++ (k, s) :: post)%list /\ forallb (fun e => negb (idle e)) pre = true.

(** The exceptions a row, a slice or a lookup can raise. *)
Definition lookup_exn (e : exn) : Prop := e = IndexError \/ e = TypeError.

(** Items ordered by key, as [sorted(d.items())] orders them. *)
Definition key_le (kv kv' : string * pyval) : Prop := String.leb (fst kv) (fst kv') = true.

(** * Properties *)

(** ** Batch assembly: padding and masks *)

Lemma list_max_ge (l : list nat) (x : nat) : In x l -> x <= list_max l.
Proof.
  induction l as [|y l IH]; simpl; [tauto|].
  intros [<-|Hin]; [lia|]. specialize (IH Hin). lia.
Qed.

Lemma list_max_attained (l : list nat) : l <> [] -> In (list_max l) l.
Proof.
  induction l as [|y l IH]; intros Hne; [congruence|].
  destruct l as [|z l'].
  - simpl. left. lia.
  - assert (Hin : In (list_max (z :: l')) (z :: l')) by (apply IH; discriminate).
    change (In (Nat.max y (list_max (z :: l'))) (y :: z :: l')).
    destruct (Nat.max_spec y (list_max (z :: l'))) as [[_ ->]|[_ ->]].
    + right. exact Hin.
    + left. reflexivity.
Qed.

Lemma sum_repeat (a n : nat) (z : Z) :
  fold_right Z.add 0%Z (repeat z a ++ repeat 1%Z n)%list
  = (Z.of_nat a * z + Z.of_nat n)%Z.
Proof.
  induction a as [|a IH]; cbn [repeat app fold_right].
  - induction n as [|n IHn]; cbn [repeat app fold_right]; [lia|]. rewrite IHn. lia.
  - rewrite IH. lia.
Qed.

Lemma nth_repeat_app (a n j : nat) (d : Z) :
  j < a + n ->
  nth j (repeat 0%Z a ++ repeat 1%Z n)%list d = (if Nat.ltb j a then 0 else 1)%Z.
Proof.
  intros Hj. destruct (Nat.ltb_spec j a).
  - rewrite app_nth1 by (rewrite repeat_length; lia). apply nth_repeat_lt; lia.
  - rewrite app_nth2 by (rewrite repeat_length; lia).
    rewrite repeat_length, nth_repeat_lt by lia. reflexivity.
Qed.

(** What a successful [from_calls] builds, field by field. *)
Lemma from_calls_fields (cs : list GenerateCall) (b : GenerateBatch) :
  from_calls cs = Ok b ->
  let max_len := list_max (map (fun c => List.length (prompt c)) cs) in
  cs <> [] /\
  input_ids b = map (fun c => (repeat 0%Z (max_len - List.length (prompt c)) ++ prompt c)%list) cs /\
  attention_mask b = map (fun c => (repeat 0%Z (max_len - List.length (prompt c))
                                    ++ repeat 1%Z (List.length (prompt c)))%list) cs /\
  calls b = cs /\
  is_score b = existsb call_is_score cs /\
  (is_score b = true -> forallb call_is_score cs = true) /\
  (is_score b = true -> exists offs, scoring_offsets b = Some offs /\
     map_result (fun c =>
        py_add_int (dict_get (kwargs c) "scoring_offset" (VInt 0))
          (Z.of_nat (max_len - List.length (prompt c)))) cs = Ok offs).
Proof.
  intros H max_len. destruct cs as [|c0 rest]; [discriminate|].
  cbv beta iota zeta delta [from_calls] in H.
  unfold max_len. rewrite !map_map in H.
  destruct (py_max _) as [mt|e]; cbn [bind] in H; [|discriminate].
  destruct (existsb call_is_score (c0 :: rest)) eqn:Es;
    destruct (forallb call_is_score (c0 :: rest)) eqn:Ea;
    cbn [negb orb] in H; try discriminate.
  - destruct (map_result _ _) as [offs|e] eqn:Em; cbn [bind] in H; [|discriminate].
    injection H as <-. cbn [input_ids attention_mask calls is_score scoring_offsets].
    repeat split; auto; try congruence; intros _; exists offs; split; reflexivity.
  - injection H as <-. cbn [input_ids attention_mask calls is_score scoring_offsets].
    repeat split; auto; congruence.
  - injection H as <-. cbn [input_ids attention_mask calls is_score scoring_offsets].
    repeat split; auto; congruence.
Qed.

(** What a successful [from_calls] makes of the prompts of a non-empty
    list of calls of one generation mode. *)
Lemma from_calls_padding_ok (cs : list GenerateCall) (b : GenerateBatch)
  (Hne : cs <> [])
  (Hmode : forall c c', In c cs -> In c' cs -> generation_mode c = generation_mode c')
  (Hok : from_calls cs = Ok b) :
  let Lmax := list_max (map (fun c => List.length (prompt c)) cs) in
  (exists c, In c cs /\ List.length (prompt c) = Lmax) /\
  List.length (input_ids b) = List.length cs /\
  List.length (attention_mask b) = List.length cs /\
  forall i c, nth_error cs i = Some c ->
    let pad := Lmax - List.length (prompt c) in
    exists row mrow,
      nth_error (input_ids b) i = Some row /\
      nth_error (attention_mask b) i = Some mrow /\
      List.length row = Lmax /\ List.length mrow = Lmax /\
      firstn pad row = repeat 0%Z pad /\ skipn pad row = prompt c /\
      (forall j, j < Lmax -> nth j mrow 0%Z = (if Nat.ltb j pad then 0 else 1)%Z) /\
      fold_right Z.add 0%Z mrow = Z.of_nat (List.length (prompt c)).
Proof.
  intros Lmax.
  destruct (from_calls_fields cs b Hok) as (_ & Hids & Hmask & _).
  fold Lmax in Hids, Hmask.
  assert (Hle : forall c, In c cs -> List.length (prompt c) <= Lmax).
  { intros c Hc. apply list_max_ge. apply in_map_iff. eauto. }
  split; [|split; [|split]].
  - destruct (in_map_iff (fun c => List.length (prompt c)) cs Lmax) as [Hin _].
    destruct (Hin (list_max_attained _ (fun H => Hne (map_eq_nil _ _ H))))
      as (c & Hc & Hcin).
    exists c. auto.
  - rewrite Hids, length_map. reflexivity.
  - rewrite Hmask, length_map. reflexivity.
  - intros i c Hi pad.
    assert (Hc : In c cs) by (eapply nth_error_In; eauto).
    specialize (Hle c Hc).
    exists (repeat 0%Z pad ++ prompt c)%list,
           (repeat 0%Z pad ++ repeat 1%Z (List.length (prompt c)))%list.
    rewrite Hids, Hmask, !nth_error_map, Hi.
    split; [reflexivity|]. split; [reflexivity|].
    rewrite !length_app, !repeat_length.
    split; [unfold pad; lia|]. split; [unfold pad; lia|].
    split; [rewrite firstn_app, repeat_length, Nat.sub_diag, firstn_O, app_nil_r;
            apply firstn_all2; rewrite repeat_length; lia|].
    split; [rewrite skipn_app, repeat_length, Nat.sub_diag, skipn_O;
            rewrite skipn_all2 by (rewrite repeat_length; lia); reflexivity|].
    split.
    + intros j Hj. apply nth_repeat_app. unfold pad. lia.
    + rewrite sum_repeat. lia.
Qed.

(** ** Generation modes and the score/non-score assertion *)

Lemma generation_mode_score (c : GenerateCall) :
  generation_mode c = "score" <-> call_is_score c = true.
Proof.
  unfold generation_mode, call_is_score.
  destruct (truthy _); split; intro H; try reflexivity; discriminate.
Qed.

Lemma map_result_err {A B} (f : A -> result B) (P : exn -> Prop) (l : list A) (e : exn) :
  (forall x e', f x = Err e' -> P e') -> map_result f l = Err e -> P e.
Proof.
  intros Hf. induction l as [|x l IH]; simpl; [discriminate|].
  destruct (f x) eqn:Ex; simpl; [|intros [= <-]; eauto].
  destruct (map_result f l); simpl; [discriminate|]. intros [= <-]. auto.
Qed.

Lemma py_index_value_err (v : pyval) (e : exn) : py_index_value v = Err e -> e = TypeError.
Proof. destruct v; simpl; congruence. Qed.

Lemma py_gt_err (x y : pyval) (e : exn) : py_gt x y = Err e -> e = TypeError.
Proof.
  unfold py_gt. destruct (num_q x), (num_q y); try discriminate;
    destruct x, y; congruence.
Qed.

Lemma py_max_from_err (m : pyval) (l : list pyval) (e : exn) :
  py_max_from m l = Err e -> e = TypeError.
Proof.
  revert m. induction l as [|x l IH]; intros m; simpl; [discriminate|].
  destruct (py_gt x m) eqn:Eg; cbn [bind]; [apply IH|].
  intros [= <-]. eapply py_gt_err; eauto.
Qed.

Lemma py_max_err (l : list pyval) (e : exn) :
  py_max l = Err e -> e = TypeError \/ exists m, e = ValueError m.
Proof.
  destruct l as [|v l]; simpl; [intros [= <-]; eauto|].
  intros H. left. eapply py_max_from_err; eauto.
Qed.

Lemma py_add_int_err (v : pyval) (n : Z) (e : exn) : py_add_int v n = Err e -> e = TypeError.
Proof. destruct v; simpl; congruence. Qed.

(** C6: when all calls share one generation mode, either none or all of
    them are score calls, so the "cannot mix score and non-score calls"
    assertion of [from_calls] holds and its failure is unreachable. *)
Theorem same_mode_no_score_mixing (cs : list GenerateCall)
  (Hne : cs <> [])
  (Hmode : forall c c', In c cs -> In c' cs -> generation_mode c = generation_mode c') :
  (existsb call_is_score cs = true -> forallb call_is_score cs = true) /\
  from_calls cs <> Err (AssertionError "cannot mix score and non-score calls in batch").
Proof.
  assert (Hall : existsb call_is_score cs = true -> forallb call_is_score cs = true).
  { intros Hex. apply existsb_exists in Hex as (c & Hc & Hs).
    apply forallb_forall. intros c' Hc'.
    apply generation_mode_score. rewrite (Hmode c' c Hc' Hc).
    apply generation_mode_score. exact Hs. }
  split; [exact Hall|].
  assert (Hcond : negb (negb (existsb call_is_score cs) || forallb call_is_score cs) = false).
  { destruct (existsb call_is_score cs); [rewrite Hall by reflexivity|]; reflexivity. }
  destruct cs as [|c0 rest]; [congruence|].
  cbv beta iota zeta delta [from_calls].
  destruct (py_max _) eqn:Emax; cbn [bind].
  2:{ intros [= ->]. apply py_max_err in Emax as [H|[m H]]; discriminate H. }
  rewrite Hcond. cbv iota.
  destruct (existsb call_is_score (c0 :: rest)); cbn [bind]; [|congruence].
  destruct (map_result _ _) as [offs|e] eqn:Em; cbn [bind]; [congruence|].
  intros [= He]. subst e.
  assert (HT : AssertionError "cannot mix score and non-score calls in batch" = TypeError).
  { eapply (map_result_err _ (fun e => e = TypeError)); [|exact Em].
    intros c e'. apply py_add_int_err. }
  discriminate HT.
Qed.


Lemma from_calls_single_mode_err (cs : list GenerateCall) (e : exn) :
  cs <> [] ->
  (forall c c', In c cs -> In c' cs -> generation_mode c = generation_mode c') ->
  from_calls cs = Err e -> e = TypeError.
Proof.
  intros Hne Hmode.
  assert (Hall : existsb call_is_score cs = true -> forallb call_is_score cs = true).
  { intros Hex. apply existsb_exists in Hex as (c & Hc & Hs).
    apply forallb_forall. intros c' Hc'.
    apply generation_mode_score. rewrite (Hmode c' c Hc' Hc).
    apply generation_mode_score. exact Hs. }
  assert (Hcond : negb (negb (existsb call_is_score cs) || forallb call_is_score cs) = false).
  { destruct (existsb call_is_score cs); [rewrite Hall by reflexivity|]; reflexivity. }
  destruct cs as [|c0 rest]; [congruence|].
  cbv beta iota zeta delta [from_calls].
  destruct (py_max _) eqn:Emax; cbn [bind].
  2:{ intros [= ->]. cbn [map py_max] in Emax. eapply py_max_from_err, Emax. }
  rewrite Hcond. cbv iota.
  destruct (existsb call_is_score (c0 :: rest)); cbn [bind]; [|congruence].
  destruct (map_result _ _) as [offs|e'] eqn:Em; cbn [bind]; [congruence|].
  intros [= <-].
  eapply (map_result_err _ (fun e => e = TypeError)); [|exact Em].
  intros c e''. apply py_add_int_err.
Qed.

(** C1: for a non-empty list of calls of one generation mode, [from_calls]
    raises nothing but a [TypeError] ([max()] meeting two [max_tokens] it
    cannot compare, or a [scoring_offset] that is not a number); when it
    returns a batch, every row of [input_ids] has length [Lmax], the
    longest prompt length; the row is the prompt left-padded with zeros;
    the mask row is 0 over the padding and 1 over the prompt, so it sums to
    the prompt length. *)
Theorem from_calls_left_padding (cs : list GenerateCall)
  (Hne : cs <> [])
  (Hmode : forall c c', In c cs -> In c' cs -> generation_mode c = generation_mode c') :
  match from_calls cs with
  | Err e => e = TypeError
  | Ok b =>
    let Lmax := list_max (map (fun c => List.length (prompt c)) cs) in
    (exists c, In c cs /\ List.length (prompt c) = Lmax) /\
    List.length (input_ids b) = List.length cs /\
    List.length (attention_mask b) = List.length cs /\
    forall i c, nth_error cs i = Some c ->
      let pad := Lmax - List.length (prompt c) in
      exists row mrow,
        nth_error (input_ids b) i = Some row /\
        nth_error (attention_mask b) i = Some mrow /\
        List.length row = Lmax /\ List.length mrow = Lmax /\
        firstn pad row = repeat 0%Z pad /\ skipn pad row = prompt c /\
        (forall j, j < Lmax -> nth j mrow 0%Z = (if Nat.ltb j pad then 0 else 1)%Z) /\
        fold_right Z.add 0%Z mrow = Z.of_nat (List.length (prompt c))
  end.
Proof.
  destruct (from_calls cs) as [b|e] eqn:Hok.
  - exact (from_calls_padding_ok cs b Hne Hmode Hok).
  - exact (from_calls_single_mode_err cs e Hne Hmode Hok).
Qed.

(** ** Batch assembly keeps every drained call *)

Lemma map_result_ok {A B} (f : A -> result B) (l : list A) (l' : list B) :
  map_result f l = Ok l' -> Forall2 (fun x y => f x = Ok y) l l'.
Proof.
  revert l'. induction l as [|x l IH]; simpl; intros l'.
  - intros [= <-]. constructor.
  - destruct (f x) eqn:Ex; cbn [bind]; [|discriminate].
    destruct (map_result f l) eqn:El; cbn [bind]; [|discriminate].
    intros [= <-]. constructor; auto.
Qed.

Lemma map_result_total {A B} (f : A -> result B) (l : list A) :
  (forall x, In x l -> exists y, f x = Ok y) -> exists l', map_result f l = Ok l'.
Proof.
  induction l as [|x l IH]; simpl; intros Hf; [eauto|].
  destruct (Hf x (or_introl eq_refl)) as [y ->]. cbn [bind].
  destruct IH as [l' ->]; [intros; apply Hf; auto|]. cbn [bind]. eauto.
Qed.

Lemma group_append_perm (m : list (string * list GenerateCall)) (k : string) (c : GenerateCall) :
  Permutation (List.concat (map snd (group_append m k c)))
              (List.concat (map snd m) ++ [c])%list.
Proof.
  induction m as [|[k' l] m IH]; simpl; [reflexivity|].
  destruct (String.eqb k k'); simpl.
  - rewrite <- !app_assoc. apply Permutation_app_head. apply Permutation_app_comm.
  - rewrite <- app_assoc. apply Permutation_app_head. exact IH.
Qed.

Lemma group_by_mode_perm (cs : list GenerateCall) :
  Permutation (List.concat (map snd (group_by_mode cs))) cs.
Proof.
  unfold group_by_mode.
  enough (H : forall m, Permutation
            (List.concat (map snd (fold_left (fun m c => group_append m (generation_mode c) c) cs m)))
            (List.concat (map snd m) ++ cs)%list) by apply H.
  induction cs as [|c cs IH]; intros m; simpl.
  - rewrite app_nil_r. reflexivity.
  - rewrite IH. rewrite group_append_perm, <- app_assoc. reflexivity.
Qed.

Lemma chunks_concat {A} (n : nat) (l : list A) : 0 < n -> List.concat (chunks n l) = l.
Proof.
  intros Hn. unfold chunks.
  enough (H : forall fuel l, List.length l <= fuel -> List.concat (chunks_fuel fuel n l) = l)
    by (apply H; lia).
  induction fuel as [|f IH]; intros l' Hl.
  - destruct l'; simpl in *; [reflexivity|lia].
  - destruct l' as [|x l'']; simpl; [reflexivity|].
    rewrite IH.
    + apply firstn_skipn.
    + rewrite length_skipn. cbn [List.length] in *. lia.
Qed.

Lemma batches_perm (max_batch_size : nat) (drained : list GenerateCall) :
  0 < max_batch_size ->
  exists bs, batches max_batch_size drained = Ok bs /\ Permutation (List.concat bs) drained.
Proof.
  intros Hpos. unfold batches.
  assert (Hsplit : forall g y, split_group max_batch_size g = Ok y -> List.concat y = g).
  { intros g y. unfold split_group.
    destruct (Nat.ltb _ _); [|intros [= <-]; apply app_nil_r].
    destruct (Nat.eqb_spec max_batch_size 0); [lia|]. intros [= <-].
    apply chunks_concat. exact Hpos. }
  destruct (map_result_total (fun mg => split_group max_batch_size (snd mg)) (group_by_mode drained))
    as [gs Hgs].
  { intros mg _. unfold split_group. destruct (Nat.ltb _ _); [|eauto].
    destruct (Nat.eqb_spec max_batch_size 0); [lia|eauto]. }
  rewrite Hgs. cbn [bind].
  exists (List.concat gs). split; [reflexivity|].
  assert (Hflat : List.concat (List.concat gs) = List.concat (map snd (group_by_mode drained))).
  { apply map_result_ok in Hgs. induction Hgs as [|mg y groups gs' Hy _ IH]; [reflexivity|].
    cbn [List.concat map]. rewrite concat_app, IH, (Hsplit _ _ Hy). reflexivity. }
  rewrite Hflat. apply group_by_mode_perm.
Qed.

(** C3 (as the code does it): [batches] never looks at [cancelled]; every
    call drained from the queue, cancelled or not, lands in exactly one
    batch, i.e. the concatenated batches are a permutation of the drained
    calls. *)
Theorem batches_keep_every_call (max_batch_size : nat) (drained : list GenerateCall)
  (Hpos : 0 < max_batch_size) :
  exists bs, batches max_batch_size drained = Ok bs /\
    Permutation (List.concat bs) drained /\
    (forall c, In c drained -> cancelled c = true -> exists b, In b bs /\ In c b).
Proof.
  destruct (batches_perm max_batch_size drained Hpos) as (bs & Hbs & Hperm).
  exists bs. split; [exact Hbs|]. split; [exact Hperm|].
  intros c Hc _. apply (Permutation_in c (Permutation_sym Hperm)) in Hc.
  apply in_concat in Hc. exact Hc.
Qed.

(** ** Routing of streamed payloads *)

Ltac inv_bind H :=
  match type of H with
  | bind ?r _ = Ok _ =>
      let E := fresh "E" in
      destruct r eqn:E; cbn [bind] in H; [|discriminate H]; inv_bind H
  | _ => idtac
  end.

Lemma nth_idx_ok {A} (l : list A) (i : nat) (x : A) :
  nth_idx l i = Ok x -> nth_error l i = Some x.
Proof. unfold nth_idx. destruct (nth_error l i); congruence. Qed.

Lemma in_skipn_in {A} (n : nat) (l : list A) (x : A) : In x (skipn n l) -> In x l.
Proof. intros H. rewrite <- (firstn_skipn n l). apply in_or_app. right. exact H. Qed.

Lemma run_rows_in (body : nat -> result (list event)) (rows : list nat) (ev : event) :
  In ev (fst (run_rows body rows)) ->
  exists i evs, In i rows /\ body i = Ok evs /\ In ev evs.
Proof.
  induction rows as [|i rs IH]; simpl; [tauto|].
  destruct (body i) as [evs|e] eqn:Eb; simpl; [|tauto].
  destruct (run_rows body rs) as [evs' oe] eqn:Er. simpl.
  intros Hin. apply in_app_or in Hin as [Hin|Hin].
  - exists i, evs. auto.
  - destruct (IH Hin) as (i' & evs'' & ? & ? & ?). exists i', evs''. auto.
Qed.

Lemma score_row_routes (b : GenerateBatch) (all_scores : list (list Z)) (i : nat)
    (evs : list event) :
  score_row b all_scores i = Ok evs ->
  forall ev, In ev evs ->
    exists c p, nth_error (calls b) i = Some c /\ ev = (result_queue c, MToken p) /\
      pl_stream_id p = stream_id c /\
      exists irow, nth_error (input_ids b) i = Some irow /\ In (pl_token p) irow.
Proof.
  unfold score_row. intros H. inv_bind H.
  injection H as <-. intros ev Hev.
  apply in_map_iff in Hev as ([j [score token]] & <- & Hin).
  apply in_combine_r, in_combine_r in Hin.
  do 2 eexists. split; [apply nth_idx_ok; eassumption|].
  split; [reflexivity|]. split; [reflexivity|].
  eexists. split; [apply nth_idx_ok; eassumption|]. cbn.
  unfold py_slice_from in Hin.
  destruct (Z.ltb _ 0); eapply in_skipn_in; exact Hin.
Qed.

Lemma token_row_routes (b : GenerateBatch) (eos : Z) (last : bool)
    (lt : list Z) (ls : list (list Z)) (tops : list (list Z * list Z)) (i : nat)
    (evs : list event) :
  token_row b eos last lt ls tops i = Ok evs ->
  forall ev, In ev evs ->
    exists c p, nth_error (calls b) i = Some c /\ ev = (result_queue c, MToken p) /\
      pl_stream_id p = stream_id c /\ nth_error lt i = Some (pl_token p).
Proof.
  unfold token_row. intros H. inv_bind H.
  injection H as <-. intros ev [<-|[]].
  do 2 eexists. split; [apply nth_idx_ok; eassumption|].
  split; [reflexivity|]. split; [reflexivity|]. cbn.
  apply nth_idx_ok; assumption.
Qed.

Lemma Forall2_nth_error_r {A B} (R : A -> B -> Prop) (l : list A) (l' : list B) (i : nat) (y : B) :
  Forall2 R l l' -> nth_error l' i = Some y -> exists x, nth_error l i = Some x /\ R x y.
Proof.
  intros H. revert i. induction H as [|x y' l l' Hxy _ IH]; intros i Hi.
  - destruct i; discriminate.
  - destruct i as [|i]; simpl in *; [injection Hi as <-; eauto|]. apply IH, Hi.
Qed.

Lemma run_rows_blocks (body : nat -> result (list event)) (n st : nat) :
  exists k row_evs, k <= n /\ fst (run_rows body (seq st n)) = List.concat row_evs /\
    Forall2 (fun i evs => body i = Ok evs) (seq st k) row_evs.
Proof.
  revert st. induction n as [|n IH]; intros st.
  - exists 0, []. simpl. repeat constructor.
  - simpl. destruct (body st) as [evs|e] eqn:Eb.
    + destruct (IH (S st)) as (k & row_evs & Hk & Hf & Hall).
      destruct (run_rows body (seq (S st) n)) as [evs' oe]. simpl in *.
      exists (S k), (evs :: row_evs). split; [lia|]. simpl. rewrite Hf.
      split; [reflexivity|]. constructor; assumption.
    + exists 0, []. simpl. repeat constructor. lia.
Qed.

Lemma run_rows_rows (body : nat -> result (list event)) (n : nat) :
  exists row_evs, fst (run_rows body (seq 0 n)) = List.concat row_evs /\
    List.length row_evs <= n /\
    forall i evs, nth_error row_evs i = Some evs -> body i = Ok evs.
Proof.
  destruct (run_rows_blocks body n 0) as (k & row_evs & Hk & Hf & Hall).
  exists row_evs. split; [exact Hf|].
  split; [apply Forall2_length in Hall; rewrite length_seq in Hall; lia|].
  intros i evs Hi.
  destruct (Forall2_nth_error_r _ _ _ _ _ Hall Hi) as (i' & Hi' & Hb).
  rewrite nth_error_seq in Hi'.
  destruct (Nat.ltb i k); [|discriminate].
  injection Hi' as <-. exact Hb.
Qed.

Lemma nth_error_combine_inv {A B} (l : list A) (l' : list B) (j : nat) (x : A) (y : B) :
  nth_error (combine l l') j = Some (x, y) -> nth_error l j = Some x /\ nth_error l' j = Some y.
Proof.
  revert l' j. induction l as [|a l IH]; intros l' j; simpl; [destruct j; discriminate|].
  destruct l' as [|b l']; [destruct j; discriminate|].
  destruct j as [|j]; simpl; [intros [= -> ->]; auto|apply IH].
Qed.

Lemma score_row_positions (b : GenerateBatch) (all_scores : list (list Z)) (i : nat)
    (evs : list event) :
  score_row b all_scores i = Ok evs ->
  forall j ev, nth_error evs j = Some ev ->
    exists c p irow offs offv off,
      nth_error (calls b) i = Some c /\ ev = call_put c p /\ pl_stream_id p = stream_id c /\
      nth_error (input_ids b) i = Some irow /\
      scoring_offsets b = Some offs /\ nth_error offs i = Some offv /\
      py_index_value offv = Ok off /\
      nth_error (py_slice_from irow off) j = Some (pl_token p).
Proof.
  unfold score_row. intros H. inv_bind H.
  injection H as <-. intros j ev Hev.
  rewrite nth_error_map in Hev.
  destruct (nth_error (combine _ _) j) as [[j' [score token]]|] eqn:Ej; [|discriminate].
  injection Hev as <-.
  apply nth_error_combine_inv in Ej as [_ Ej].
  apply nth_error_combine_inv in Ej as [_ Ej].
  destruct (scoring_offsets b) as [offs|]; [|discriminate].
  injection E as ->.
  do 6 eexists. split; [apply nth_idx_ok; eassumption|].
  split; [reflexivity|]. split; [reflexivity|].
  split; [apply nth_idx_ok; eassumption|].
  split; [reflexivity|]. split; [apply nth_idx_ok; eassumption|].
  split; [eassumption|]. exact Ej.
Qed.

(** C10: [TokenStreamer.log_token] and [ScoreStreamer.log_token] emit
    their payloads row by row: what they put is the concatenation of one
    block per row, in row order, and every payload of the block of row [i]
    is put on the result queue of [batch.calls[i]] with that call's
    [stream_id]. In [TokenStreamer] it carries row [i]'s last token; in
    [ScoreStreamer] the [j]-th payload of row [i] carries the [j]-th token
    of [input_ids[i][offset:]], [offset] being row [i]'s scoring offset. *)
Theorem streamers_route_row_to_its_call :
  (forall b eos cancels rows scores last,
     exists row_evs,
       fst (token_log_token b eos cancels rows scores last) = List.concat row_evs /\
       List.length row_evs <= List.length rows /\
       forall i evs, nth_error row_evs i = Some evs ->
         Forall (fun ev =>
           exists c p row, nth_error (calls b) i = Some c /\ ev = call_put c p /\
             pl_stream_id p = stream_id c /\
             nth_error rows i = Some row /\ py_last row = Ok (pl_token p)) evs) /\
  (forall b all_scores,
     exists row_evs,
       fst (score_log_token b all_scores) = List.concat row_evs /\
       List.length row_evs <= List.length all_scores /\
       forall i evs, nth_error row_evs i = Some evs ->
         forall j ev, nth_error evs j = Some ev ->
           exists c p irow offs offv off,
             nth_error (calls b) i = Some c /\ ev = call_put c p /\
             pl_stream_id p = stream_id c /\
             nth_error (input_ids b) i = Some irow /\
             scoring_offsets b = Some offs /\ nth_error offs i = Some offv /\
             py_index_value offv = Ok off /\
             nth_error (py_slice_from irow off) j = Some (pl_token p)).
Proof.
  split.
  - intros b eos cancels rows scores last.
    assert (Hnil : exists row_evs : list (list event),
               @nil event = List.concat row_evs /\ List.length row_evs <= List.length rows /\
               forall i evs, nth_error row_evs i = Some evs -> Forall (fun _ => False) evs).
    { exists []. simpl. repeat split; [lia|]. intros i evs Hi. destruct i; discriminate. }
    unfold token_log_token.
    destruct (map_result py_last rows) as [lt|e] eqn:Elt; cbn [bind];
      [|exists []; simpl; repeat split; [lia|intros i evs Hi; destruct i; discriminate]].
    destruct (py_last scores) as [ls|e]; cbn [bind];
      [|exists []; simpl; repeat split; [lia|intros i evs Hi; destruct i; discriminate]].
    destruct (py_max _) as [k|e]; cbn [bind];
      [|exists []; simpl; repeat split; [lia|intros i evs Hi; destruct i; discriminate]].
    destruct (batch_cancelled b && cancels);
      [exists []; simpl; repeat split; [lia|intros i evs Hi; destruct i; discriminate]|].
    destruct (py_index_value k) as [kz|e]; cbn [bind];
      [|exists []; simpl; repeat split; [lia|intros i evs Hi; destruct i; discriminate]].
    destruct (run_rows_rows (token_row b eos last lt ls (map (topk_row (Z.to_nat kz)) ls))
                (List.length rows)) as (row_evs & Hf & Hlen & Hrow).
    exists row_evs. split; [exact Hf|]. split; [exact Hlen|].
    intros i evs Hi. apply Forall_forall. intros ev Hev.
    destruct (token_row_routes _ _ _ _ _ _ _ _ (Hrow i evs Hi) ev Hev)
      as (c & p & Hc & -> & Hsid & Htok).
    apply map_result_ok in Elt.
    destruct (Forall2_nth_error_r _ _ _ _ _ Elt Htok) as (row & Hr & Hl).
    exists c, p, row. repeat split; auto.
  - intros b all_scores. unfold score_log_token.
    destruct (run_rows_rows (score_row b all_scores) (List.length all_scores))
      as (row_evs & Hf & Hlen & Hrow).
    exists row_evs. split; [exact Hf|]. split; [exact Hlen|].
    intros i evs Hi j ev Hev.
    exact (score_row_positions b all_scores i evs (Hrow i evs Hi) j ev Hev).
Qed.

(** ** Scoring *)

Lemma dict_find_set_same (d : pydict) (k : string) (v : pyval) :
  dict_find (dict_set d k v) k = Some v.
Proof.
  induction d as [|[k' v'] d IH]; simpl.
  - rewrite String.eqb_refl. reflexivity.
  - destruct (String.eqb_spec k k') as [->|Hne]; simpl.
    + rewrite String.eqb_refl. reflexivity.
    + apply String.eqb_neq in Hne. rewrite Hne. exact IH.
Qed.

Lemma dict_find_set_other (d : pydict) (k k' : string) (v : pyval) :
  k' <> k -> dict_find (dict_set d k v) k' = dict_find d k'.
Proof.
  intros Hne. induction d as [|[k0 v0] d IH]; simpl.
  - apply String.eqb_neq in Hne. rewrite Hne. reflexivity.
  - destruct (String.eqb_spec k k0) as [->|Hne0]; simpl.
    + apply String.eqb_neq in Hne. rewrite Hne. reflexivity.
    + rewrite IH. reflexivity.
Qed.

Lemma run_rows_total (body : nat -> result (list event)) (rows : list nat) :
  (forall i, In i rows -> exists evs, body i = Ok evs) ->
  exists row_evs, Forall2 (fun i evs => body i = Ok evs) rows row_evs /\
    run_rows body rows = (List.concat row_evs, None).
Proof.
  induction rows as [|i rs IH]; simpl; intros Hb.
  - exists []. split; [constructor|reflexivity].
  - destruct (Hb i (or_introl eq_refl)) as [evs Hi]. rewrite Hi.
    destruct IH as (row_evs & Hf & Hr); [intros; apply Hb; auto|].
    rewrite Hr. exists (evs :: row_evs). split; [constructor; auto|reflexivity].
Qed.

Lemma Forall2_nth_error_l {A B} (R : A -> B -> Prop) (l : list A) (l' : list B) (i : nat) (x : A) :
  Forall2 R l l' -> nth_error l i = Some x -> exists y, nth_error l' i = Some y /\ R x y.
Proof.
  intros H. revert i. induction H as [|x' y l l' Hxy _ IH]; intros i Hi.
  - destruct i; discriminate.
  - destruct i as [|i]; simpl in *; [injection Hi as <-; eauto|]. apply IH, Hi.
Qed.

Lemma nth_error_combine {A B} (l : list A) (l' : list B) (j : nat) (d : A) (d' : B) :
  j < List.length l -> j < List.length l' ->
  nth_error (combine l l') j = Some (nth j l d, nth j l' d').
Proof.
  revert l' j. induction l as [|x l IH]; intros l' j Hj Hj'; simpl in *; [lia|].
  destruct l' as [|y l']; simpl in *; [lia|].
  destruct j as [|j]; simpl; [reflexivity|]. apply IH; lia.
Qed.

Lemma py_add_int_index (v : pyval) (n z : Z) :
  py_index_value v = Ok z -> py_add_int v n = Ok (VInt (z + n)).
Proof. destruct v; simpl; congruence. Qed.

Lemma score_row_total (cs : list GenerateCall) (b : GenerateBatch) (all_scores : list (list Z)) :
  from_calls cs = Ok b -> is_score b = true -> List.length all_scores = List.length cs ->
  (forall c, In c cs -> exists z, py_index_value (dict_get (kwargs c) "scoring_offset" (VInt 0)) = Ok z) ->
  forall k, k < List.length cs -> exists evs, score_row b all_scores k = Ok evs.
Proof.
  intros Hb Hs Hlen Hint k Hk.
  destruct (from_calls_fields cs b Hb) as (_ & Hids & _ & Hcalls & _ & _ & Hoffs).
  destruct (Hoffs Hs) as (offs & Ho & Hm).
  apply map_result_ok in Hm.
  pose proof (Forall2_length Hm) as Hml.
  unfold score_row. rewrite Ho. cbn [bind].
  unfold nth_idx.
  destruct (nth_error offs k) as [offv|] eqn:E1; [|apply nth_error_None in E1; lia]. cbn [bind].
  destruct (nth_error all_scores k) eqn:E2; [|apply nth_error_None in E2; lia]. cbn [bind].
  destruct (nth_error cs k) as [ck|] eqn:Eck; [|apply nth_error_None in Eck; lia].
  destruct (Forall2_nth_error_l _ _ _ _ _ Hm Eck) as (o & Ho' & Hco).
  rewrite E1 in Ho'. injection Ho' as <-.
  destruct (Hint ck (nth_error_In _ _ Eck)) as (z & Hz).
  rewrite (py_add_int_index _ _ _ Hz) in Hco. injection Hco as <-. cbn [py_index_value bind].
  destruct (nth_error (input_ids b) k) eqn:E3;
    [|apply nth_error_None in E3; rewrite Hids, length_map in E3; lia]. cbn [bind].
  destruct (nth_error (calls b) k) eqn:E4;
    [|apply nth_error_None in E4; rewrite Hcalls in E4; lia]. cbn [bind].
  eauto.
Qed.

(** C4: a [SCORE] command with prompt [p] and scored tokens [s] submits the
    call [p ++ s] with [scoring_offset = len(p)]; in a score batch its row's
    offset is [len(p)] plus the row's left padding, and [ScoreStreamer]
    emits, for that row, exactly [len(s)] payloads: the [j]-th carries
    [s[j]], the score at that position, and [finish_reason] "stop" exactly
    when it is the last one. The backend's score matrix has shape
    [N x Lmax] (one row per call, one score per position). *)
Theorem score_command_streams_scored_tokens (cmd : ScoreCommand) (q : nat)
  (cs : list GenerateCall) (i : nat) (b : GenerateBatch) (all_scores : list (list Z))
  (Hi : nth_error cs i = Some (handle_score_call cmd q))
  (Hb : from_calls cs = Ok b)
  (Hint : forall c', In c' cs ->
          exists z, py_index_value (dict_get (kwargs c') "scoring_offset" (VInt 0)) = Ok z)
  (Hlen : List.length all_scores = List.length cs)
  (Hrows : forall r, In r all_scores ->
           List.length r = list_max (map (fun c => List.length (prompt c)) cs)) :
  let c := handle_score_call cmd q in
  let p := sc_prompt cmd in
  let s := sc_scored cmd in
  let Lmax := list_max (map (fun c => List.length (prompt c)) cs) in
  let off := List.length p + (Lmax - List.length (p ++ s)%list) in
  prompt c = (p ++ s)%list /\
  dict_find (kwargs c) "scoring_offset" = Some (VInt (Z.of_nat (List.length p))) /\
  dict_find (kwargs c) "score" = Some (VBool true) /\
  (exists offs, scoring_offsets b = Some offs /\ nth_error offs i = Some (VInt (Z.of_nat off))) /\
  exists row_evs evs srow,
    score_log_token b all_scores = (List.concat row_evs, None) /\
    Forall2 (fun k evs => score_row b all_scores k = Ok evs) (seq 0 (List.length cs)) row_evs /\
    nth_error row_evs i = Some evs /\
    nth_error all_scores i = Some srow /\
    List.length evs = List.length s /\
    forall j, j < List.length s ->
      nth_error evs j =
        Some (call_put c (mkTokenPayload (nth j s 0%Z) (stream_id c) (nth (off + j) srow 0%Z)
                (if Nat.eqb j (List.length s - 1) then FinishStop else FinishNone) None)).
Proof.
  intros c p s Lmax off.
  change (handle_score_call cmd q) with c in Hi.
  assert (Hkw_off : dict_find (kwargs c) "scoring_offset" = Some (VInt (Z.of_nat (List.length p))))
    by apply dict_find_set_same.
  assert (Hkw_score : dict_find (kwargs c) "score" = Some (VBool true)).
  { cbn [c handle_score_call kwargs]. rewrite dict_find_set_other by discriminate.
    apply dict_find_set_same. }
  assert (Hcin : In c cs) by (eapply nth_error_In; eauto).
  assert (Hcs : call_is_score c = true).
  { unfold call_is_score, dict_get. rewrite Hkw_score. reflexivity. }
  destruct (from_calls_fields cs b Hb) as (_ & Hids & _ & Hcalls & Hsc & _ & Hoffs).
  fold Lmax in Hids, Hoffs.
  assert (Hs : is_score b = true).
  { rewrite Hsc. apply existsb_exists. eauto. }
  destruct (Hoffs Hs) as (offs & Ho & Hm).
  apply map_result_ok in Hm.
  destruct (Forall2_nth_error_l _ _ _ _ _ Hm Hi) as (o & Hoi & Hco).
  unfold dict_get in Hco. rewrite Hkw_off in Hco. cbn [py_add_int] in Hco.
  injection Hco as Hco.
  assert (Hle : List.length (p ++ s)%list <= Lmax).
  { apply list_max_ge. apply in_map_iff. exists c. split; [reflexivity|exact Hcin]. }
  assert (Ho_off : o = VInt (Z.of_nat off)).
  { rewrite <- Hco. f_equal. unfold off. cbn [c handle_score_call prompt]. fold p s. lia. }
  split; [reflexivity|]. split; [exact Hkw_off|]. split; [exact Hkw_score|].
  split; [exists offs; split; [exact Ho|rewrite <- Ho_off; exact Hoi]|].
  destruct (run_rows_total (score_row b all_scores) (seq 0 (List.length cs))) as (row_evs & Hf & Hr).
  { intros k Hk. apply in_seq in Hk. apply (score_row_total cs); auto; lia. }
  assert (Hilt : i < List.length cs) by (apply nth_error_Some; congruence).
  assert (Hseq : nth_error (seq 0 (List.length cs)) i = Some i).
  { rewrite nth_error_seq. apply Nat.ltb_lt in Hilt. rewrite Hilt. reflexivity. }
  destruct (Forall2_nth_error_l _ _ _ _ _ Hf Hseq) as (evs & Hevs & Hrow).
  destruct (nth_error all_scores i) as [srow|] eqn:Esrow;
    [|apply nth_error_None in Esrow; lia].
  exists row_evs, evs, srow.
  split; [unfold score_log_token; rewrite Hlen; exact Hr|].
  split; [exact Hf|]. split; [exact Hevs|]. split; [reflexivity|].
  assert (Hsrow_len : List.length srow = Lmax) by (apply Hrows; eapply nth_error_In; eauto).
  assert (Hirow : nth_error (input_ids b) i
                  = Some (repeat 0%Z (Lmax - List.length (p ++ s)%list) ++ (p ++ s))%list).
  { rewrite Hids, nth_error_map, Hi. reflexivity. }
  unfold score_row in Hrow. rewrite Ho in Hrow. cbn [bind] in Hrow.
  unfold nth_idx in Hrow. rewrite Hoi, Esrow, Hirow, Hcalls, Hi, Ho_off in Hrow.
  cbn [bind py_index_value] in Hrow.
  injection Hrow as <-.
  assert (Hsl1 : py_slice_from srow (Z.of_nat off) = skipn off srow).
  { unfold py_slice_from. destruct (Z.ltb_spec (Z.of_nat off) 0); [lia|]. rewrite Nat2Z.id. reflexivity. }
  assert (Hsl2 : py_slice_from (repeat 0%Z (Lmax - List.length (p ++ s)%list) ++ (p ++ s))%list
                   (Z.of_nat off) = s).
  { unfold py_slice_from. destruct (Z.ltb_spec (Z.of_nat off) 0); [lia|]. rewrite Nat2Z.id.
    unfold off. rewrite <- skipn_skipn.
    rewrite skipn_app, repeat_length, Nat.sub_diag, skipn_O.
    rewrite (@skipn_all2 Z _ (repeat 0%Z (Lmax - List.length (p ++ s)%list)))
      by (rewrite repeat_length; lia). cbn [app].
    rewrite skipn_app, Nat.sub_diag, skipn_all, skipn_O. reflexivity. }
  rewrite ?Ho_off, Hsl1, Hsl2.
  assert (Hslen : List.length (skipn off srow) = List.length s).
  { rewrite length_skipn, Hsrow_len. unfold off. rewrite length_app in *. lia. }
  rewrite ?length_map, ?length_combine, ?length_seq, ?Hslen, ?Nat.min_id.
  split; [reflexivity|].
  intros j Hj.
  rewrite nth_error_map.
  rewrite (nth_error_combine _ _ j 0 (0%Z, 0%Z)) by
    (rewrite ?length_seq, ?length_combine, ?Hslen; lia).
  rewrite seq_nth by (rewrite ?length_combine, ?Hslen, ?Nat.min_id; lia).
  rewrite combine_nth by exact Hslen.
  cbn. rewrite nth_skipn. reflexivity.
Qed.

(** ** Failures while processing a batch *)

Lemma token_log_token_only_tokens b eos cancels rows scores last ev :
  In ev (fst (token_log_token b eos cancels rows scores last)) -> exists p, snd ev = MToken p.
Proof.
  unfold token_log_token.
  destruct (map_result py_last rows); cbn [bind]; [|simpl; tauto].
  destruct (py_last scores); cbn [bind]; [|simpl; tauto].
  destruct (py_max _); cbn [bind]; [|simpl; tauto].
  destruct (batch_cancelled b && cancels); [simpl; tauto|].
  destruct (py_index_value _); cbn [bind]; [|simpl; tauto].
  intros Hin. apply run_rows_in in Hin as (i & evs & _ & Hrow & Hev).
  destruct (token_row_routes _ _ _ _ _ _ _ _ Hrow ev Hev) as (c & p & _ & -> & _).
  exists p. reflexivity.
Qed.

Lemma score_log_token_only_tokens b all_scores ev :
  In ev (fst (score_log_token b all_scores)) -> exists p, snd ev = MToken p.
Proof.
  unfold score_log_token. intros Hin.
  apply run_rows_in in Hin as (i & evs & _ & Hrow & Hev).
  destruct (score_row_routes _ _ _ _ Hrow ev Hev) as (c & p & _ & -> & _).
  exists p. reflexivity.
Qed.

Lemma stream_steps_only_tokens model b steps outcome ev :
  In ev (fst (stream_steps model b steps outcome)) -> exists p, snd ev = MToken p.
Proof.
  induction steps as [|[ids scs] rest IH]; simpl.
  - destruct outcome; [apply token_log_token_only_tokens|simpl; tauto].
  - destruct (token_log_token _ _ _ ids scs false) as [evs [e|]] eqn:Et.
    + intros Hin. apply (token_log_token_only_tokens b (eos_token_id model) (cancellable model) ids scs false).
      rewrite Et. exact Hin.
    + destruct (stream_steps model b rest outcome) as [evs' oe] eqn:Es. simpl.
      intros Hin. apply in_app_or in Hin as [Hin|Hin].
      * apply (token_log_token_only_tokens b (eos_token_id model) (cancellable model) ids scs false).
        rewrite Et. exact Hin.
      * apply IH. exact Hin.
Qed.

Lemma batch_body_only_tokens model bc ev :
  In ev (fst (batch_body model bc)) -> exists p, snd ev = MToken p.
Proof.
  unfold batch_body. destruct (from_calls bc) as [b|e]; [|simpl; tauto].
  destruct (is_score b).
  - destruct (score model _ _); [apply score_log_token_only_tokens|simpl; tauto].
  - destruct (generate model b) as [steps outcome]. apply stream_steps_only_tokens.
Qed.

(** C7: an exception raised while a batch is processed (by [generate],
    [score], a streamer or batch construction) is confined to that batch:
    after the payloads already streamed (all token payloads), every call of
    the batch gets one error payload, "lmtp.cancelled" for an
    [InterruptedError] and "failed to generate tokens '<reason>'" for any
    other exception, and the loop goes on with the remaining batches. *)
Theorem batch_failure_confined (model : Backend) (drained : list GenerateCall)
  (Hpos : 0 < max_batch_size model) :
  exists bs, batches (max_batch_size model) drained = Ok bs /\
    process_batch model drained = Ok (flat_map (process_one model) bs) /\
    forall bc, In bc bs -> forall evs e, batch_body model bc = (evs, Some e) ->
      (forall ev, In ev evs -> exists p, snd ev = MToken p) /\
      ((exists m, e = InterruptedError m) ->
         process_one model bc = (evs ++ map (fun c => call_error c "lmtp.cancelled") bc)%list) /\
      ((forall m, e <> InterruptedError m) ->
         process_one model bc =
           (evs ++ map (fun c => call_error c ("failed to generate tokens '" ++ exn_str e ++ "'")) bc)%list).
Proof.
  destruct (batches_perm (max_batch_size model) drained Hpos) as (bs & Hbs & _).
  exists bs. split; [exact Hbs|].
  split; [unfold process_batch; rewrite Hbs; reflexivity|].
  intros bc _ evs e Hbody.
  split; [intros ev Hev; apply (batch_body_only_tokens model bc); rewrite Hbody; exact Hev|].
  unfold process_one. rewrite Hbody.
  split.
  - intros [m ->]. reflexivity.
  - intros Hne. destruct e; try reflexivity. exfalso. eapply Hne. reflexivity.
Qed.

(** ** Registry keys *)

Lemma pickle_pairs_inj (d1 d2 : pydict) :
  flat_map (fun kv => [P_STR (fst kv); P_VAL (snd kv)]) d1
  = flat_map (fun kv => [P_STR (fst kv); P_VAL (snd kv)]) d2 -> d1 = d2.
Proof.
  revert d2. induction d1 as [|[k v] d1 IH]; intros [|[k' v'] d2]; simpl; try discriminate; auto.
  intros [= -> -> H]. f_equal. apply IH, H.
Qed.

Lemma pickle_items_inj (d1 d2 : pydict) : pickle_items d1 = pickle_items d2 -> d1 = d2.
Proof.
  destruct d1 as [|[k1 v1] [|kv1 r1]]; destruct d2 as [|[k2 v2] [|kv2 r2]];
    cbn [pickle_items]; try discriminate; auto.
  - intros [= -> ->]. reflexivity.
  - intros H. apply (f_equal (@tl _)) in H. cbn [tl] in H.
    apply app_inj_tail in H as [H _]. apply pickle_pairs_inj in H. exact H.
Qed.

(** C5 (as the code does it): the registry key of a model-args dict is
    determined by its entries in insertion order: two dicts give the same
    key exactly when they are the same list of entries, in the same order. *)
Theorem registry_key_insertion_ordered (m1 m2 : string) (d1 d2 : pydict) :
  registry_key m1 (Some d1) = registry_key m2 (Some d2) <-> m1 = m2 /\ d1 = d2.
Proof.
  unfold registry_key, pickle_dumps. split.
  - intros [= -> H]. split; [reflexivity|].
    apply app_inj_tail in H as [H _]. apply pickle_items_inj, H.
  - intros [-> ->]. reflexivity.
Qed.

(** C5: the same two entries inserted in the two orders are the same
    mapping, but their registry keys differ. *)
Lemma registry_key_depends_on_order :
  let d1 := [("a", VInt 1); ("b", VInt 2)] in
  let d2 := [("b", VInt 2); ("a", VInt 1)] in
  (forall k, dict_find d1 k = dict_find d2 k) /\
  registry_key "m" (Some d1) <> registry_key "m" (Some d2).
Proof.
  split.
  - intros k. cbn [dict_find].
    destruct (String.eqb k "a") eqn:Ea; destruct (String.eqb k "b") eqn:Eb; try reflexivity.
    apply String.eqb_eq in Ea, Eb. congruence.
  - vm_compute. intros H. discriminate H.
Qed.

(** ** Unregistering *)

(** C9 (as the code does it): [unregister(user)] removes [user] from
    [users] and sets [last_use] to the current time when [user] is
    registered; for an unknown user nothing changes. Queue, model
    identifier, model args, sync flag and kill event are never changed. *)
Theorem unregister_frame (s : Scheduler) (user : nat) (now : Z) :
  let s' := unregister s user now in
  (forall u, In u (users s') <-> In u (users s) /\ u <> user) /\
  last_use s' = (if existsb (Nat.eqb user) (users s) then now else last_use s) /\
  queue s' = queue s /\ model_identifier s' = model_identifier s /\
  model_args s' = model_args s /\ sync s' = sync s /\ kill_event s' = kill_event s.
Proof.
  intros s'. unfold s', unregister.
  destruct (existsb (Nat.eqb user) (users s)) eqn:Ex; cbn.
  - split; [|repeat split]. intros u. rewrite filter_In.
    destruct (Nat.eqb_spec u user) as [->|Hne]; cbn; [|tauto].
    split; [intros [_ H]; discriminate H|intros [_ H]; congruence].
  - split; [|repeat split]. intros u. split; [|tauto]. intros Hu. split; [exact Hu|].
    intros ->. assert (Hin : existsb (Nat.eqb user) (users s) = true).
    { apply existsb_exists. exists user. split; [exact Hu|apply Nat.eqb_refl]. }
    congruence.
Qed.

(** C9: unregistering a user that is not registered leaves [last_use]
    unchanged. *)
Lemma unregister_unknown_user_keeps_last_use :
  let s := mkScheduler "m" [] false [] [] 0 false in
  last_use (unregister s 7 10) <> 10%Z.
Proof. vm_compute. discriminate. Qed.

(** ** Garbage collection *)

(** C8: [instance("m", None, user 1)], [instance("m", {}, user 2)],
    [unregister(1)] on the first scheduler, then [gc(0)]: the scheduler of
    user 2 is removed from the registry and the idle one stays, because
    [dealloc] recomputes its key from [self.model_args], which [__init__]
    turned from [None] into [{}]. *)
Lemma gc_zero_drops_scheduler_in_use :
  let r1 := fst (instance [] "m" None (Some 1) false false 0) in
  let r2 := fst (instance r1 "m" (Some []) (Some 2) false false 1) in
  let r3 := unregister_at r2 (registry_key "m" None) 1 2 in
  option_map users (reg_find r3 (registry_key "m" None)) = Some [] /\
  option_map users (reg_find r3 (registry_key "m" (Some []))) = Some [2] /\
  snd (gc 0 r3) = None /\
  option_map users (reg_find (fst (gc 0 r3)) (registry_key "m" None)) = Some [] /\
  reg_find (fst (gc 0 r3)) (registry_key "m" (Some [])) = None.
Proof. vm_compute. repeat split. Qed.

(** ** The top-k mapping of TokenStreamer *)

(** C2: in a batch whose calls ask for 1 and 3 top logprobs, the payload of
    the first row carries a [top_logprobs] mapping of 3 entries although its
    emitted token is its top-1 token. *)
Lemma top_logprobs_not_sliced_per_row :
  let ca := mkGenerateCall [1; 2]%Z None [("top_logprobs", VInt 1)] 10 0 false in
  let cb := mkGenerateCall [3]%Z None [("top_logprobs", VInt 3)] 11 1 false in
  match from_calls [ca; cb] with
  | Ok b =>
      map (fun ev => match snd ev with
                     | MToken p => (pl_token p, option_map (@List.length _) (pl_top_logprobs p))
                     | MError _ _ => (0%Z, None)
                     end)
          (fst (token_log_token b 99 true [[1; 2; 0]; [0; 3; 2]]%Z
                  [[[-1; -2; -3; -4]; [-4; -3; -2; -1]]]%Z false))
  | Err _ => []
  end = [(0%Z, Some 3); (2%Z, Some 3)].
Proof. vm_compute. reflexivity. Qed.

(** ** Cancelled calls in batch assembly *)

(** C3: a call cancelled before it is drained is not discarded by
    [batches]: it is the only call of the batch built from it. *)
Lemma cancelled_call_reaches_batch :
  let cx := mkGenerateCall [1]%Z None [] 1 0 true in
  ~ (forall bs, batches 8 [cx] = Ok bs ->
       forall b c, In b bs -> In c b -> cancelled c = false).
Proof.
  intros cx H.
  assert (Hb : batches 8 [cx] = Ok [[cx]]) by (vm_compute; reflexivity).
  specialize (H _ Hb [cx] cx (or_introl eq_refl) (or_introl eq_refl)).
  discriminate H.
Qed.

(** * Instances of the theorems on concrete inputs *)

Lemma from_calls_left_padding_witness :
  let ca := mkGenerateCall [1; 2; 3]%Z None
              [("temperature", VFloat 7 1); ("max_tokens", VInt 5)] 1 0 false in
  let cb := mkGenerateCall [4]%Z None
              [("max_tokens", VInt 50); ("temperature", VFloat 70 2)] 2 0 false in
  exists b, from_calls [ca; cb] = Ok b /\
    generation_mode ca = generation_mode cb /\
    List.length (attention_mask b) = 2.
Proof.
  intros ca cb.
  pose proof (from_calls_left_padding [ca; cb] ltac:(discriminate)
                ltac:(intros c c' [<-|[<-|[]]] [<-|[<-|[]]]; vm_compute; reflexivity)) as H.
  destruct (from_calls [ca; cb]) as [b|e] eqn:E.
  - exists b. split; [reflexivity|]. split; [vm_compute; reflexivity|].
    exact (proj1 (proj2 (proj2 H))).
  - vm_compute in E. discriminate E.
Defined.

Lemma same_mode_no_score_mixing_witness :
  let sa := mkGenerateCall [5; 6; 7]%Z None [("score", VBool true); ("scoring_offset", VInt 1)] 10 0 false in
  let sb := mkGenerateCall [8; 9]%Z None [("score", VBool true); ("scoring_offset", VInt 1)] 11 1 false in
  generation_mode sa = generation_mode sb /\
  from_calls [sa; sb] <> Err (AssertionError "cannot mix score and non-score calls in batch").
Proof.
  intros sa sb. split; [vm_compute; reflexivity|].
  apply (proj2 (same_mode_no_score_mixing [sa; sb] ltac:(discriminate)
                  ltac:(intros c c' [<-|[<-|[]]] [<-|[<-|[]]]; vm_compute; reflexivity))).
Defined.

Lemma batches_keep_every_call_witness :
  let cx := mkGenerateCall [1]%Z None [] 1 0 true in
  0 < 8 /\ exists bs, batches 8 [cx] = Ok bs /\ Permutation (List.concat bs) [cx].
Proof.
  intros cx. split; [lia|].
  destruct (batches_keep_every_call 8 [cx] ltac:(lia)) as (bs & Hbs & Hperm & _).
  exists bs. split; [exact Hbs|exact Hperm].
Defined.

Lemma score_command_streams_scored_tokens_witness :
  let cmd := mkScoreCommand "m" [5; 6]%Z [7; 8]%Z 3 [] in
  let other := handle_score_call (mkScoreCommand "m" [9]%Z [4]%Z 4 []) 0 in
  exists b, from_calls [handle_score_call cmd 0; other] = Ok b /\
    prompt (handle_score_call cmd 0) = [5; 6; 7; 8]%Z.
Proof.
  intros cmd other. eexists. split; [reflexivity|].
  refine (proj1 (score_command_streams_scored_tokens cmd 0 [handle_score_call cmd 0; other] 0 _
                   [[-1; -2; -3; -4]; [-5; -6; -7; -8]]%Z eq_refl eq_refl _ eq_refl _)).
  - intros c' [<-|[<-|[]]]; eexists; vm_compute; reflexivity.
  - intros r [<-|[<-|[]]]; vm_compute; reflexivity.
Defined.

Lemma batch_failure_confined_witness :
  let model := mkBackend 8 0 true (fun _ _ => Err (BackendError "CUDA out of memory"))
                 (fun _ => ([], GenRaise (BackendError "CUDA out of memory"))) in
  let ca := mkGenerateCall [1; 2]%Z None [] 10 0 false in
  0 < max_batch_size model /\
  exists bs, process_batch model [ca] = Ok (flat_map (process_one model) bs).
Proof.
  intros model ca. split; [vm_compute; lia|].
  destruct (batch_failure_confined model [ca] ltac:(vm_compute; lia)) as (bs & _ & Hp & _).
  exists bs. exact Hp.
Defined.

Lemma registry_key_insertion_ordered_witness :
  registry_key "m" (Some [("a", VInt 1)]) = registry_key "m" (Some [("a", VInt 1)]).
Proof.
  apply (proj2 (registry_key_insertion_ordered "m" "m" [("a", VInt 1)] [("a", VInt 1)])).
  split; reflexivity.
Defined.

(** * Further properties *)

(** ** Batch assembly *)

Lemma group_append_keys (M : list (string * list GenerateCall)) (k k' : string) (c : GenerateCall) :
  In k' (map fst (group_append M k c)) -> k' = k \/ In k' (map fst M).
Proof.
  induction M as [|[k0 l] M IH]; simpl; [intros [<-|[]]; auto|].
  destruct (String.eqb k k0); simpl; [tauto|]. intros [<-|H]; [tauto|]. destruct (IH H); tauto.
Qed.

Lemma group_append_nodup (M : list (string * list GenerateCall)) (k : string) (c : GenerateCall) :
  NoDup (map fst M) -> NoDup (map fst (group_append M k c)).
Proof.
  induction M as [|[k0 l] M IH]; simpl; intros Hnd; [repeat constructor; simpl; tauto|].
  inversion Hnd as [|? ? Hk0 Hnd']; subst.
  destruct (String.eqb_spec k k0) as [->|Hne]; simpl; [constructor; auto|].
  constructor; [|auto]. intros Hin. apply group_append_keys in Hin as [->|Hin]; auto.
Qed.

Lemma group_append_in (M : list (string * list GenerateCall)) (k k' : string) (c : GenerateCall) g :
  In (k', g) (group_append M k c) ->
  (k' = k /\ (g = [c] \/ exists g0, In (k, g0) M /\ g = (g0 ++ [c])%list)) \/ In (k', g) M.
Proof.
  induction M as [|[k0 l] M IH]; simpl.
  - intros [[= <- <-]|[]]. left. auto.
  - destruct (String.eqb_spec k k0) as [->|Hne]; simpl.
    + intros [[= <- <-]|H]; [left; split; [reflexivity|right; eauto]|right; right; exact H].
    + intros [H|H]; [right; left; exact H|]. destruct (IH H) as [(-> & [->|(g0 & Hg0 & ->)])|H'].
      * left. auto.
      * left. split; [reflexivity|right; eauto].
      * right; right; exact H'.
Qed.

Lemma filter_key_absent (M : list (string * list GenerateCall)) (m : string) :
  ~ In m (map fst M) -> filter (fun kg => String.eqb (fst kg) m) M = [].
Proof.
  induction M as [|[k0 l] M IH]; simpl; intros Hn; [reflexivity|].
  destruct (String.eqb_spec k0 m); [tauto|]. apply IH. tauto.
Qed.

Lemma group_append_concat (M : list (string * list GenerateCall)) (k m : string) (c : GenerateCall) :
  NoDup (map fst M) ->
  List.concat (map snd (filter (fun kg => String.eqb (fst kg) m) (group_append M k c)))
  = (List.concat (map snd (filter (fun kg => String.eqb (fst kg) m) M))
     ++ (if String.eqb k m then [c] else []))%list.
Proof.
  induction M as [|[k0 l] M IH]; simpl; intros Hnd.
  - destruct (String.eqb k m); simpl; reflexivity.
  - inversion Hnd as [|? ? Hk0 Hnd']; subst.
    destruct (String.eqb_spec k k0) as [->|Hne]; simpl.
    + destruct (String.eqb_spec k0 m) as [->|Hne']; simpl.
      * rewrite (filter_key_absent M m Hk0). simpl. rewrite !app_nil_r. reflexivity.
      * rewrite app_nil_r. reflexivity.
    + destruct (String.eqb k0 m); simpl; rewrite IH by exact Hnd'; [apply app_assoc|reflexivity].
Qed.

Lemma group_by_mode_groups (cs : list GenerateCall) : groups_of cs (group_by_mode cs).
Proof.
  unfold group_by_mode.
  enough (H : forall pre M, groups_of pre M ->
            groups_of (pre ++ cs)%list (fold_left (fun m c => group_append m (generation_mode c) c) cs M)).
  { apply (H []). split; [constructor|]. split; [simpl; tauto|reflexivity]. }
  induction cs as [|c cs IH]; intros pre M HM; simpl.
  - rewrite app_nil_r. exact HM.
  - replace (pre ++ c :: cs)%list with ((pre ++ [c]) ++ cs)%list by (rewrite <- app_assoc; reflexivity).
    apply IH. destruct HM as (Hnd & Hg & Hf).
    split; [apply group_append_nodup, Hnd|]. split.
    + intros k g Hin. apply group_append_in in Hin as [(-> & [->|(g0 & Hg0 & ->)])|Hin].
      * split; [discriminate|]. intros c' [<-|[]]. reflexivity.
      * split; [destruct g0; discriminate|]. intros c' Hc'. apply in_app_or in Hc' as [Hc'|[<-|[]]].
        -- apply (proj2 (Hg _ _ Hg0)), Hc'.
        -- reflexivity.
      * apply Hg, Hin.
    + intros m. rewrite group_append_concat by exact Hnd. rewrite Hf, filter_app. reflexivity.
Qed.

Lemma in_firstn_in {A} (n : nat) (l : list A) (x : A) : In x (firstn n l) -> In x l.
Proof. intros H. rewrite <- (firstn_skipn n l). apply in_or_app. left. exact H. Qed.

Lemma chunks_fuel_shape {A} (fuel n : nat) (l : list A) (ch : list A) :
  0 < n -> In ch (chunks_fuel fuel n l) ->
  ch <> [] /\ List.length ch <= n /\ (forall x, In x ch -> In x l).
Proof.
  revert l. induction fuel as [|f IH]; intros l Hn; simpl; [tauto|].
  destruct l as [|y l']; [simpl; tauto|].
  intros [<-|Hin].
  - split; [destruct n; [lia|discriminate]|]. split; [apply firstn_le_length|].
    apply in_firstn_in.
  - destruct (IH _ Hn Hin) as (H1 & H2 & H3). split; [exact H1|]. split; [exact H2|].
    intros x Hx. apply (in_skipn_in n). apply H3, Hx.
Qed.

Lemma split_group_shape (n : nat) (g : list GenerateCall) (y : list (list GenerateCall)) :
  0 < n -> g <> [] -> split_group n g = Ok y ->
  List.concat y = g /\
  forall b, In b y -> b <> [] /\ List.length b <= n /\ (forall c, In c b -> In c g).
Proof.
  intros Hn Hg. unfold split_group.
  destruct (Nat.ltb_spec n (List.length g)).
  - destruct (Nat.eqb_spec n 0); [lia|]. intros [= <-].
    split; [apply chunks_concat, Hn|]. intros b Hb. apply (chunks_fuel_shape _ _ _ _ Hn Hb).
  - intros [= <-]. split; [apply app_nil_r|]. intros b [<-|[]]. auto.
Qed.

Lemma batches_split (n : nat) (drained : list GenerateCall) (bs : list (list GenerateCall)) :
  batches n drained = Ok bs ->
  exists gs, Forall2 (fun mg y => split_group n (snd mg) = Ok y) (group_by_mode drained) gs /\
    bs = List.concat gs.
Proof.
  unfold batches. intros H. inv_bind H. injection H as <-.
  eexists. split; [apply map_result_ok; eassumption|reflexivity].
Qed.

Lemma Forall2_in_r {A B} (R : A -> B -> Prop) (l : list A) (l' : list B) (y : B) :
  Forall2 R l l' -> In y l' -> exists x, In x l /\ R x y.
Proof.
  induction 1 as [|x y' l l' Hxy _ IH]; simpl; [tauto|].
  intros [<-|Hin]; [eauto|]. destruct (IH Hin) as (x' & ? & ?). eauto.
Qed.

(** The shape of the batches: non-empty, at most [max_batch_size] calls,
    all of one generation mode. *)
Lemma batches_shape_spec (n : nat) (drained : list GenerateCall) (bs : list (list GenerateCall)) :
  0 < n -> batches n drained = Ok bs ->
  forall b, In b bs ->
    b <> [] /\ List.length b <= n /\ (forall c, In c b -> In c drained) /\
    (forall c c', In c b -> In c' b -> generation_mode c = generation_mode c').
Proof.
  intros Hn Hbs b Hb.
  destruct (batches_split _ _ _ Hbs) as (gs & Hgs & ->).
  destruct (group_by_mode_groups drained) as (_ & Hg & Hf).
  apply in_concat in Hb as (y & Hy & Hb).
  destruct (Forall2_in_r _ _ _ _ Hgs Hy) as ([k g] & Hkg & Hsplit).
  destruct (Hg k g Hkg) as (Hne & Hmode).
  destruct (split_group_shape n g y Hn Hne Hsplit) as (_ & Hsh).
  destruct (Hsh b Hb) as (Hb1 & Hb2 & Hb3).
  split; [exact Hb1|]. split; [exact Hb2|]. split.
  - intros c Hc. specialize (Hb3 c Hc).
    assert (Hin : In c (filter (fun c' => String.eqb (generation_mode c') k) drained)).
    { rewrite <- Hf. apply in_concat. exists g. split; [|exact Hb3].
      apply in_map_iff. exists (k, g). split; [reflexivity|]. apply filter_In.
      split; [exact Hkg|apply String.eqb_refl]. }
    apply filter_In in Hin. apply Hin.
  - intros c c' Hc Hc'. rewrite (Hmode c (Hb3 c Hc)), (Hmode c' (Hb3 c' Hc')). reflexivity.
Qed.

(** [Scheduler.batches] keeps the queue order within each generation
    mode: the batches of mode [m], concatenated in the order they are
    returned, are exactly the drained calls of mode [m] in the order they
    were drained. *)
Theorem batches_fifo (n : nat) (drained : list GenerateCall) (bs : list (list GenerateCall)) (m : string)
  (Hn : 0 < n) (Hbs : batches n drained = Ok bs) :
  List.concat (filter (head_mode_is m) bs) = filter (fun c => String.eqb (generation_mode c) m) drained.
Proof.
  destruct (batches_split _ _ _ Hbs) as (gs & Hgs & ->).
  destruct (group_by_mode_groups drained) as (_ & Hg & Hf).
  rewrite <- Hf. clear Hf Hbs.
  revert Hg. induction Hgs as [|[k g] y G gs Hsplit _ IH]; intros Hg; [reflexivity|].
  cbn [List.concat]. rewrite filter_app, concat_app, IH.
  2:{ intros k' g' Hin. apply Hg. right. exact Hin. }
  destruct (Hg k g (or_introl eq_refl)) as (Hne & Hmode).
  destruct (split_group_shape n g y Hn Hne Hsplit) as (Hcat & Hsh).
  assert (Hfy : filter (head_mode_is m) y = if String.eqb k m then y else []).
  { clear IH Hcat Hsplit. induction y as [|b y IHy]; simpl; [destruct (String.eqb k m); reflexivity|].
    destruct (Hsh b (or_introl eq_refl)) as (Hb1 & _ & Hb3).
    destruct b as [|c b]; [congruence|]. cbn [head_mode_is].
    rewrite (Hmode c (Hb3 c (or_introl eq_refl))).
    rewrite IHy by (intros b' Hb'; apply Hsh; right; exact Hb').
    destruct (String.eqb k m); reflexivity. }
  rewrite Hfy. cbn [filter fst map List.concat snd].
  destruct (String.eqb k m); cbn [map List.concat snd]; [rewrite Hcat; reflexivity|reflexivity].
Qed.

(** [Scheduler.batches] with [max_batch_size > 0]: every batch is
    non-empty, holds at most [max_batch_size] calls, only calls drained
    from the queue, and calls of one generation mode. *)
Theorem batches_shape (n : nat) (drained : list GenerateCall) (bs : list (list GenerateCall))
  (Hn : 0 < n) (Hbs : batches n drained = Ok bs) (b : list GenerateCall) (Hb : In b bs) :
  b <> [] /\ List.length b <= n /\ (forall c, In c b -> In c drained) /\
  (forall c c', In c b -> In c' b -> generation_mode c = generation_mode c').
Proof. exact (batches_shape_spec n drained bs Hn Hbs b Hb). Qed.


(** Every batch that [Scheduler.batches] hands to [process_batch] is
    accepted by [GenerateBatch.from_calls] unless [max()] meets two
    [max_tokens] values it cannot compare or a [scoring_offset] is not a
    number, both a [TypeError]: the empty-list [ValueError] and the
    score-mixing assertion never fire. *)
Theorem batches_from_calls_only_type_errors (n : nat) (drained : list GenerateCall)
  (bs : list (list GenerateCall)) (b : list GenerateCall) (e : exn)
  (Hn : 0 < n) (Hbs : batches n drained = Ok bs) (Hb : In b bs)
  (He : from_calls b = Err e) :
  e = TypeError.
Proof.
  destruct (batches_shape_spec n drained bs Hn Hbs b Hb) as (Hne & _ & _ & Hmode).
  exact (from_calls_single_mode_err b e Hne Hmode He).
Qed.

Lemma group_append_nonempty (M : list (string * list GenerateCall)) (k : string) (c : GenerateCall) :
  group_append M k c <> [].
Proof. destruct M as [|[k' l] M]; simpl; [discriminate|]. destruct (String.eqb k k'); discriminate. Qed.

Lemma fold_group_nonempty (cs : list GenerateCall) (M : list (string * list GenerateCall)) :
  M <> [] -> fold_left (fun m c => group_append m (generation_mode c) c) cs M <> [].
Proof.
  revert M. induction cs as [|c cs IH]; intros M HM; simpl; [exact HM|].
  apply IH, group_append_nonempty.
Qed.

(** With [max_batch_size = 0], [process_batch] raises [ValueError] from
    [range(0, n, 0)] in [batches] as soon as any call was drained, before
    any batch is processed (the exception is outside the per-batch [try]);
    with nothing drained it does nothing. *)
Theorem process_batch_zero_max_batch_size (model : Backend) (drained : list GenerateCall)
  (H0 : max_batch_size model = 0) :
  process_batch model drained =
    match drained with
    | [] => Ok []
    | _ => Err (ValueError "range() arg 3 must not be zero")
    end.
Proof.
  unfold process_batch, batches. rewrite H0.
  destruct drained as [|c cs]; [reflexivity|].
  destruct (group_by_mode_groups (c :: cs)) as (_ & Hg & _).
  assert (Hne : group_by_mode (c :: cs) <> []).
  { unfold group_by_mode. simpl. apply fold_group_nonempty. discriminate. }
  destruct (group_by_mode (c :: cs)) as [|[k g] M] eqn:EM; [congruence|].
  destruct (Hg k g (or_introl eq_refl)) as (Hgne & _).
  cbn [map_result]. unfold split_group at 1. cbn [snd].
  destruct g as [|c0 g]; [congruence|]. reflexivity.
Qed.

Lemma adict_find_set_same (d : list (string * argval)) (k : string) (v : argval) :
  adict_find (adict_set d k v) k = Some v.
Proof.
  induction d as [|[k' v'] d IH]; simpl; [rewrite String.eqb_refl; reflexivity|].
  destruct (String.eqb k k') eqn:E; simpl; [rewrite E; reflexivity|rewrite E; exact IH].
Qed.

Lemma adict_find_set_other (d : list (string * argval)) (k k' : string) (v : argval) :
  k <> k' -> adict_find (adict_set d k' v) k = adict_find d k.
Proof.
  intros Hne. induction d as [|[k0 v0] d IH]; simpl.
  - apply String.eqb_neq in Hne. rewrite Hne. reflexivity.
  - destruct (String.eqb k' k0) eqn:E; simpl.
    + apply String.eqb_eq in E. subst k0. apply String.eqb_neq in Hne. rewrite Hne. reflexivity.
    + destruct (String.eqb k k0); [reflexivity|exact IH].
Qed.

Lemma dict_find_notin (d : pydict) (k : string) :
  ~ In k (map fst d) -> dict_find d k = None.
Proof.
  induction d as [|[k' v] d IH]; simpl; [reflexivity|].
  intros Hn. destruct (String.eqb_spec k k'); [subst; tauto|]. apply IH. tauto.
Qed.

Lemma dict_find_in (d : pydict) (k : string) :
  dict_find d k = None -> ~ In k (map fst d).
Proof.
  induction d as [|[k' v] d IH]; simpl; [tauto|].
  destruct (String.eqb_spec k k'); [discriminate|]. intros Hf [<-|Hin]; [congruence|]. exact (IH Hf Hin).
Qed.

(** [{**base, **kw}]: a key of [kw] takes [kw]'s value, any other key
    keeps [base]'s. *)
Lemma merge_find (kw : pydict) (base : list (string * argval)) (k : string) :
  NoDup (map fst kw) ->
  adict_find (fold_left (fun d kv => adict_set d (fst kv) (APy (snd kv))) kw base) k =
  match dict_find kw k with Some v => Some (APy v) | None => adict_find base k end.
Proof.
  revert base. induction kw as [|[k' v] kw IH]; intros base Hnd; simpl; [reflexivity|].
  inversion Hnd as [|? ? Hnin Hnd']; subst.
  rewrite IH by exact Hnd'. cbn [fst snd].
  destruct (String.eqb_spec k k') as [->|Hne].
  - rewrite dict_find_notin by exact Hnin. apply adict_find_set_same.
  - destruct (dict_find kw k); [reflexivity|]. apply adict_find_set_other, Hne.
Qed.

(** [GenerateBatch.generate_args]: a key of the batch kwargs takes the
    kwargs' value, overriding the entry the batch itself supplies under
    that name ([input_ids], [attention_mask], [temperature],
    [max_new_tokens], [bias_tensor]); every other key is looked up in
    those five entries. *)
Theorem generate_args_find (b : GenerateBatch) (k : string)
  (Hnd : NoDup (map fst (batch_kwargs b))) :
  adict_find (generate_args b) k =
  match dict_find (batch_kwargs b) k with
  | Some v => Some (APy v)
  | None =>
      adict_find
        [("input_ids", AMatrix (input_ids b));
         ("attention_mask", AMatrix (attention_mask b));
         ("temperature", APy (temperature b));
         ("max_new_tokens", APy (max_tokens b));
         ("bias_tensor",
            ABias (if Nat.ltb 0 (List.length (logit_biases b)) then Some (logit_biases b) else None))] k
  end.
Proof. apply merge_find, Hnd. Qed.

Lemma from_calls_args (c0 : GenerateCall) (rest : list GenerateCall) (b : GenerateBatch) :
  from_calls (c0 :: rest) = Ok b ->
  temperature b = dict_get (kwargs c0) "temperature" (VFloat 0 1) /\
  logit_biases b = map (fun c => or_empty (logit_bias c)) (c0 :: rest) /\
  batch_kwargs b = dict_pop (dict_pop (dict_pop (kwargs c0) "max_tokens") "top_logprobs") "temperature".
Proof.
  intros H. cbv beta iota zeta delta [from_calls] in H.
  destruct (py_max _) as [mt|e]; cbn [bind] in H; [|discriminate].
  destruct (negb _); [discriminate|].
  destruct (existsb call_is_score (c0 :: rest)).
  - destruct (map_result _ _) as [offs|e]; cbn [bind] in H; [|discriminate].
    injection H as <-. repeat split.
  - cbn [bind] in H. injection H as <-. repeat split.
Qed.

Lemma dict_pop_keys (d : pydict) (k : string) :
  map fst (dict_pop d k) = filter (fun k' => negb (String.eqb k' k)) (map fst d).
Proof.
  induction d as [|[k' v] d IH]; simpl; [reflexivity|].
  destruct (String.eqb k' k); simpl; [exact IH|rewrite IH; reflexivity].
Qed.

Lemma dict_pop_find_other (d : pydict) (k k' : string) :
  k <> k' -> dict_find (dict_pop d k') k = dict_find d k.
Proof.
  intros Hne. induction d as [|[k0 v] d IH]; simpl; [reflexivity|].
  destruct (String.eqb_spec k0 k') as [->|Hne']; simpl.
  - apply String.eqb_neq in Hne. rewrite Hne. exact IH.
  - destruct (String.eqb k k0); [reflexivity|exact IH].
Qed.

Lemma dict_pop_find_same (d : pydict) (k : string) : dict_find (dict_pop d k) k = None.
Proof.
  induction d as [|[k0 v] d IH]; simpl; [reflexivity|].
  destruct (String.eqb_spec k0 k) as [->|Hne]; simpl; [exact IH|].
  destruct (String.eqb_spec k k0); [congruence|exact IH].
Qed.

Lemma NoDup_filter_keys (l : list string) (f : string -> bool) : NoDup l -> NoDup (filter f l).
Proof.
  induction 1 as [|x l Hx _ IH]; simpl; [constructor|].
  destruct (f x); [|exact IH]. constructor; [|exact IH].
  intros Hin. apply filter_In in Hin. tauto.
Qed.

(** For a batch built by [GenerateBatch.from_calls], [generate_args]
    passes the first call's temperature (0.0 when it has none), even if
    that call's kwargs name one, and passes the per-call logit biases as
    [bias_tensor] unless the first call's kwargs carry a [bias_tensor]
    entry, which then replaces them. *)
Theorem from_calls_generate_args (c0 : GenerateCall) (rest : list GenerateCall) (b : GenerateBatch)
  (Hb : from_calls (c0 :: rest) = Ok b) (Hnd : NoDup (map fst (kwargs c0))) :
  adict_find (generate_args b) "temperature" =
    Some (APy (dict_get (kwargs c0) "temperature" (VFloat 0 1))) /\
  adict_find (generate_args b) "bias_tensor" =
    match dict_find (kwargs c0) "bias_tensor" with
    | Some v => Some (APy v)
    | None => Some (ABias (Some (map (fun c => or_empty (logit_bias c)) (c0 :: rest))))
    end.
Proof.
  destruct (from_calls_args c0 rest b Hb) as (Ht & Hl & Hk).
  assert (Hnd' : NoDup (map fst (batch_kwargs b))).
  { rewrite Hk, !dict_pop_keys. repeat apply NoDup_filter_keys. exact Hnd. }
  unfold generate_args. rewrite !(merge_find _ _ _ Hnd'), Hk, Ht, Hl.
  rewrite dict_pop_find_same.
  rewrite !dict_pop_find_other by discriminate.
  split; [reflexivity|].
  destruct (dict_find (kwargs c0) "bias_tensor"); reflexivity.
Qed.

Lemma recent_samples_ok (times : list QArith_base.Q) (clock : nat -> QArith_base.Q)
  (sizes : list nat) (i : nat) :
  i + List.length sizes <= List.length times ->
  exists l, recent_samples times clock i sizes = Ok l /\ List.length l <= List.length sizes.
Proof.
  revert i. induction sizes as [|v vs IH]; intros i Hi; simpl.
  - exists []. split; [reflexivity|]. simpl. lia.
  - cbn [List.length] in Hi.
    destruct (nth_error times i) as [t|] eqn:Et.
    2:{ apply nth_error_None in Et. lia. }
    destruct (IH (S i)) as (l & Hl & Hlen); [lia|].
    unfold nth_idx. rewrite Et. cbn [bind]. rewrite Hl. cbn [bind].
    eexists. split; [reflexivity|].
    destruct (QArith_base.Qle_bool _ _); simpl; lia.
Qed.

Lemma np_mean_some (l : list nat) : l <> [] -> np_mean l <> None.
Proof. destruct l; [congruence|]. intros _. discriminate. Qed.

Lemma slice_recent_nonempty (sizes : list nat) (n : nat) :
  sizes <> [] -> n <= List.length sizes -> py_slice_from sizes (- Z.of_nat n) <> [].
Proof.
  intros Hne Hn. unfold py_slice_from.
  destruct n as [|n].
  - cbn. exact Hne.
  - assert (Hlt : (- Z.of_nat (S n) < 0)%Z) by lia. apply Z.ltb_lt in Hlt. rewrite Hlt.
    intros H. apply (f_equal (@List.length nat)) in H. rewrite length_skipn in H. cbn in H.
    lia.
Qed.

(** [Scheduler.measure_token]: from statistics whose time and size lists
    are aligned and hold at most 100 samples, the call succeeds; the lists
    stay aligned, keep the latest at most 100 samples (the oldest is dropped
    once 101 would be held), and the average batch size never becomes NaN:
    when no sample falls in the last second, [sizes[-0:]] is the whole
    window, not an empty list. *)
Theorem measure_token_window (st : TokenStats) (batch_size : nat) (clock : nat -> QArith_base.Q)
  (Hal : List.length (last_token_times st) = List.length (last_batch_sizes st))
  (Hle : List.length (last_batch_sizes st) <= 100) :
  exists st',
    measure_token st batch_size clock = Ok st' /\
    last_token_times st' =
      skipn (S (List.length (last_token_times st)) - 100) (last_token_times st ++ [clock 0]) /\
    last_batch_sizes st' =
      skipn (S (List.length (last_batch_sizes st)) - 100) (last_batch_sizes st ++ [batch_size]) /\
    List.length (last_batch_sizes st') <= 100 /\
    (last_batch_size st <> None -> last_batch_size st' <> None).
Proof.
  unfold measure_token.
  set (T := (last_token_times st ++ [clock 0])%list).
  set (S0 := (last_batch_sizes st ++ [batch_size])%list).
  assert (HT : List.length T = S (List.length (last_batch_sizes st)))
    by (unfold T; rewrite length_app, Hal; cbn; lia).
  assert (HS : List.length S0 = S (List.length (last_batch_sizes st)))
    by (unfold S0; rewrite length_app; cbn; lia).
  assert (Hts : exists T' S', 
            (if Nat.ltb 100 (List.length T)
             then times' <- pop0 T ;; sizes' <- pop0 S0 ;; Ok (times', sizes')
             else Ok (T, S0)) = Ok (T', S') /\
            T' = skipn (S (List.length (last_token_times st)) - 100) T /\
            S' = skipn (S (List.length (last_batch_sizes st)) - 100) S0 /\
            List.length T' = List.length S' /\ List.length S' <= 100 /\ S' <> []).
  { rewrite HT, <- Hal.
    destruct (Nat.ltb_spec 100 (S (List.length (last_token_times st)))).
    - destruct T as [|t T'] eqn:ET; [cbn in HT; lia|].
      destruct S0 as [|s S'] eqn:ES; [cbn in HS; lia|].
      exists T', S'. cbn [pop0 bind].
      replace (S (List.length (last_token_times st)) - 100) with 1 by lia.
      cbn in HT, HS. cbn [skipn]. repeat split; try reflexivity; try lia.
      destruct S'; [cbn in HS; lia|discriminate].
    - exists T, S0. replace (S (List.length (last_token_times st)) - 100) with 0 by lia.
      cbn [skipn]. repeat split; try reflexivity; try lia.
      unfold S0. destruct (last_batch_sizes st); discriminate. }
  destruct Hts as (T' & S' & -> & HT' & HS' & Hal' & Hle' & Hne'). cbn [bind fst snd].
  destruct (recent_samples_ok T' clock S' 0) as (l & Hl & Hll); [lia|].
  rewrite Hl. cbn [bind].
  eexists. split; [reflexivity|]. cbn [last_token_times last_batch_sizes last_batch_size].
  split; [exact HT'|]. split; [exact HS'|]. split; [exact Hle'|].
  intros Hx. destruct (last_batch_size st) as [x|]; [|congruence].
  destruct (np_mean (py_slice_from S' (- Z.of_nat (List.length l)))) eqn:Em; [discriminate|].
  exfalso. exact (np_mean_some _ (slice_recent_nonempty S' _ Hne' Hll) Em).
Qed.

Lemma string_compare_not_gt_trans (a b c : string) :
  String.compare a b <> Gt -> String.compare b c <> Gt -> String.compare a c <> Gt.
Proof.
  revert b c. induction a as [|x a IH]; intros b c Hab Hbc.
  - destruct c; discriminate.
  - destruct b as [|y b]; [cbn in Hab; congruence|].
    destruct c as [|z c]; [cbn in Hbc; congruence|].
    cbn [String.compare] in *. unfold Ascii.compare in *.
    destruct (N.compare_spec (N_of_ascii x) (N_of_ascii y)) as [Exy|Exy|Exy]; [| |congruence];
    destruct (N.compare_spec (N_of_ascii y) (N_of_ascii z)) as [Eyz|Eyz|Eyz]; try congruence;
    destruct (N.compare_spec (N_of_ascii x) (N_of_ascii z)) as [Exz|Exz|Exz]; try lia; try discriminate.
    eapply IH; eassumption.
Qed.

Lemma string_compare_refl (s : string) : String.compare s s = Eq.
Proof.
  induction s as [|x s IH]; [reflexivity|].
  cbn [String.compare]. unfold Ascii.compare. rewrite N.compare_refl. exact IH.
Qed.

Lemma py_gt_ok (x y : pyval) (g : bool) :
  py_gt x y = Ok g ->
  (exists a b, num_q x = Some a /\ num_q y = Some b /\
     g = match QArith_base.Qcompare a b with Gt => true | _ => false end) \/
  (exists s1 s2, x = VStr s1 /\ y = VStr s2 /\
     g = match String.compare s1 s2 with Gt => true | _ => false end).
Proof.
  unfold py_gt. destruct (num_q x) as [a|] eqn:Ex, (num_q y) as [b|] eqn:Ey.
  - intros [= <-]. left. eauto.
  - destruct x, y; simpl in Ex, Ey; try discriminate.
  - destruct x, y; simpl in Ex, Ey; try discriminate.
  - destruct x, y; simpl in Ex, Ey; try discriminate. intros [= <-]. right. eauto.
Qed.

Lemma py_gt_num (x y : pyval) (a b : QArith_base.Q) :
  num_q x = Some a -> num_q y = Some b ->
  py_gt x y = Ok (match QArith_base.Qcompare a b with Gt => true | _ => false end).
Proof. intros Ex Ey. unfold py_gt. rewrite Ex, Ey. reflexivity. Qed.

Lemma py_gt_refl (x y : pyval) (g : bool) :
  py_gt x y = Ok g -> py_gt x x = Ok false /\ py_gt y y = Ok false.
Proof.
  intros H. destruct (py_gt_ok x y g H) as [(a & b & Ex & Ey & _)|(s1 & s2 & -> & -> & _)].
  - rewrite (py_gt_num x x a a Ex Ex), (py_gt_num y y b b Ey Ey).
    rewrite (proj1 (QArith_base.Qeq_alt a a) (QArith_base.Qeq_refl a)).
    rewrite (proj1 (QArith_base.Qeq_alt b b) (QArith_base.Qeq_refl b)). auto.
  - unfold py_gt. cbn [num_q].
    rewrite !string_compare_refl. auto.
Qed.

Lemma py_gt_antisym (x y : pyval) : py_gt x y = Ok true -> py_gt y x = Ok false.
Proof.
  intros H. destruct (py_gt_ok x y true H) as [(a & b & Ex & Ey & Hg)|(s1 & s2 & -> & -> & Hg)].
  - rewrite (py_gt_num y x b a Ey Ex). rewrite <- QArith_base.Qcompare_antisym.
    destruct (QArith_base.Qcompare a b); try discriminate. reflexivity.
  - unfold py_gt. cbn [num_q]. rewrite String.compare_antisym.
    destruct (String.compare s1 s2); try discriminate. reflexivity.
Qed.

Lemma py_gt_le_trans (x y z : pyval) :
  py_gt x y = Ok false -> py_gt y z = Ok false -> py_gt x z = Ok false.
Proof.
  intros H1 H2.
  destruct (py_gt_ok x y false H1) as [(a & b & Ex & Ey & Hg)|(s1 & s2 & -> & -> & Hg)];
  destruct (py_gt_ok _ _ false H2) as [(b' & c & Ey' & Ez & Hg')|(s2' & s3 & Hy & -> & Hg')].
  - rewrite Ey in Ey'. injection Ey' as <-.
    rewrite (py_gt_num x z a c Ex Ez).
    assert (Hab : QArith_base.Qle a b)
      by (apply QArith_base.Qle_alt; destruct (QArith_base.Qcompare a b); discriminate).
    assert (Hbc : QArith_base.Qle b c)
      by (apply QArith_base.Qle_alt; destruct (QArith_base.Qcompare b c); discriminate).
    pose proof (proj1 (QArith_base.Qle_alt a c) (QArith_base.Qle_trans _ _ _ Hab Hbc)) as Hac.
    destruct (QArith_base.Qcompare a c); congruence.
  - subst y. discriminate Ey.
  - discriminate Ey'.
  - injection Hy as <-. unfold py_gt. cbn [num_q].
    assert (H12 : String.compare s1 s2 <> Gt) by (destruct (String.compare s1 s2); discriminate).
    assert (H23 : String.compare s2 s3 <> Gt) by (destruct (String.compare s2 s3); discriminate).
    pose proof (string_compare_not_gt_trans s1 s2 s3 H12 H23) as H13.
    destruct (String.compare s1 s3); congruence.
Qed.

Lemma py_max_from_in (m : pyval) (l : list pyval) (r : pyval) :
  py_max_from m l = Ok r -> In r (m :: l).
Proof.
  revert m. induction l as [|x l IH]; intros m; simpl.
  - intros [= <-]. left. reflexivity.
  - destruct (py_gt x m) as [g|e]; cbn [bind]; [|discriminate].
    intros H. destruct (IH _ H) as [<-|Hin].
    + destruct g; simpl; auto.
    + simpl; auto.
Qed.

Lemma py_max_from_le (l : list pyval) :
  forall m r seen, py_max_from m l = Ok r ->
  (forall v, In v seen -> py_gt v m = Ok false) ->
  forall v, In v (seen ++ l) -> py_gt v r = Ok false.
Proof.
  induction l as [|x l IH]; intros m r seen Hm Hseen v Hv; simpl in Hm.
  - injection Hm as <-. rewrite app_nil_r in Hv. auto.
  - destruct (py_gt x m) as [g|e] eqn:Exm; cbn [bind] in Hm; [|discriminate].
    replace (seen ++ x :: l)%list with ((seen ++ [x]) ++ l)%list in Hv
      by (rewrite <- app_assoc; reflexivity).
    refine (IH _ r (seen ++ [x])%list Hm _ v Hv).
    intros u Hu. apply in_app_or in Hu as [Hu|[<-|[]]].
    + destruct g; [|auto].
      apply (py_gt_le_trans u m x); [auto|]. apply py_gt_antisym, Exm.
    + destruct g; [|exact Exm]. apply (proj1 (py_gt_refl x m true Exm)).
Qed.

(** [GenerateBatch.from_calls] generates [max_new_tokens] for the whole
    batch with Python's [max()] over the calls' [max_tokens] (32 for a call
    that sets none): the batch's value is one of the calls' values, and no
    call's value compares greater than it; with two calls or more, every
    call's value compares as not greater (they were all compared). *)
Theorem from_calls_max_tokens (cs : list GenerateCall) (b : GenerateBatch)
  (Hb : from_calls cs = Ok b) :
  let mts := map (fun c => dict_get (kwargs c) "max_tokens" (VInt 32)) cs in
  In (max_tokens b) mts /\
  (forall v, In v mts -> py_gt v (max_tokens b) <> Ok true) /\
  (2 <= List.length cs -> forall v, In v mts -> py_gt v (max_tokens b) = Ok false).
Proof.
  intros mts.
  destruct cs as [|c0 rest]; [discriminate|].
  cbv beta iota zeta delta [from_calls] in Hb.
  destruct (py_max _) as [mt|e] eqn:Emax; cbn [bind] in Hb; [|discriminate].
  assert (Hmt : max_tokens b = mt).
  { destruct (negb _); [discriminate|].
    destruct (existsb call_is_score (c0 :: rest)).
    - destruct (map_result _ _); cbn [bind] in Hb; [|discriminate]. injection Hb as <-. reflexivity.
    - cbn [bind] in Hb. injection Hb as <-. reflexivity. }
  rewrite Hmt. clear Hb Hmt. fold mts in Emax.
  destruct mts as [|v0 vs] eqn:Emts; [discriminate|]. cbn [py_max] in Emax.
  assert (Hlen : List.length mts = S (List.length rest)) by (unfold mts; rewrite length_map; reflexivity).
  rewrite Emts in Hlen. cbn [List.length] in Hlen.
  assert (Hle2 : vs <> [] -> forall v, In v (v0 :: vs) -> py_gt v mt = Ok false).
  { intros Hvs. destruct vs as [|x vs']; [congruence|].
    cbn [py_max_from] in Emax.
    destruct (py_gt x v0) as [g|e] eqn:Ex0; cbn [bind] in Emax; [|discriminate].
    intros v Hv.
    refine (py_max_from_le (x :: vs') v0 mt [v0] _ _ v Hv).
    - cbn [py_max_from]. rewrite Ex0. exact Emax.
    - intros u [<-|[]]. apply (proj2 (py_gt_refl x v0 g Ex0)). }
  split; [apply py_max_from_in, Emax|].
  split.
  - intros v Hv. destruct vs as [|x vs'].
    + cbn [py_max_from] in Emax. injection Emax as <-. destruct Hv as [<-|[]].
      intros H. pose proof (py_gt_antisym _ _ H) as H'. congruence.
    + rewrite (Hle2 ltac:(discriminate) v Hv). discriminate.
  - intros H2. apply Hle2. destruct vs; [cbn in Hlen, H2; lia|discriminate].
Qed.

(** ** The scheduler registry *)

Lemma key_eqb_spec (k k' : key) : key_eqb k k' = true <-> k = k'.
Proof.
  destruct k as [a l], k' as [a' l']. unfold key_eqb. cbn [fst snd].
  destruct (string_dec a a') as [->|Ha]; [|split; [discriminate|congruence]].
  destruct (list_eq_dec pickle_op_eq_dec l l') as [->|Hl]; split; congruence.
Qed.

Lemma key_eqb_refl (k : key) : key_eqb k k = true.
Proof. apply key_eqb_spec. reflexivity. Qed.

Lemma key_eqb_false (k k' : key) : key_eqb k k' = false <-> k <> k'.
Proof. rewrite <- key_eqb_spec. destruct (key_eqb k k'); split; congruence. Qed.

Lemma reg_find_in (r : registry) (k : key) (s : Scheduler) :
  reg_find r k = Some s -> In (k, s) r.
Proof.
  induction r as [|[k' s'] r IH]; simpl; [discriminate|].
  destruct (key_eqb k k') eqn:E; [apply key_eqb_spec in E as ->; intros [= ->]; auto|].
  intros H. right. apply IH, H.
Qed.

Lemma reg_find_none (r : registry) (k : key) :
  reg_find r k = None <-> ~ In k (map fst r).
Proof.
  induction r as [|[k' s'] r IH]; simpl; [tauto|].
  destruct (key_eqb k k') eqn:E.
  - apply key_eqb_spec in E as ->. split; [discriminate|tauto].
  - apply key_eqb_false in E. rewrite IH. intuition.
Qed.

Lemma keys_distinct_nodup (r : registry) : keys_distinct r = true <-> NoDup (map fst r).
Proof.
  induction r as [|[k s] r IH]; simpl; [split; [constructor|reflexivity]|].
  rewrite andb_true_iff, negb_true_iff, IH.
  assert (Hex : existsb (fun ks => key_eqb k (fst ks)) r = false <-> ~ In k (map fst r)).
  { rewrite <- reg_find_none. clear. induction r as [|[k' s'] r IH]; simpl; [tauto|].
    destruct (key_eqb k k'); [split; discriminate|exact IH]. }
  rewrite Hex. split; [intros [? ?]; constructor; auto|intros H; inversion H; auto].
Qed.

Lemma in_reg_find (r : registry) (k : key) (s : Scheduler) :
  keys_distinct r = true -> In (k, s) r -> reg_find r k = Some s.
Proof.
  rewrite keys_distinct_nodup.
  induction r as [|[k' s'] r IH]; simpl; intros Hnd; [tauto|].
  inversion Hnd as [|? ? Hk' Hnd']; subst.
  intros [[= <- <-]|Hin]; [rewrite key_eqb_refl; reflexivity|].
  destruct (key_eqb k k') eqn:E; [|apply IH; auto].
  apply key_eqb_spec in E as ->. exfalso. apply Hk'. apply in_map_iff. exists (k', s). auto.
Qed.

Lemma keys_distinct_same (r : registry) (e e' : key * Scheduler) :
  keys_distinct r = true -> In e r -> In e' r -> fst e = fst e' -> e = e'.
Proof.
  intros Hd He He' Hk. destruct e as [k s], e' as [k' s']. cbn in Hk. subst k'.
  apply (in_reg_find _ _ _ Hd) in He. apply (in_reg_find _ _ _ Hd) in He'. congruence.
Qed.

Lemma keys_distinct_filter (f : key * Scheduler -> bool) (r : registry) :
  keys_distinct r = true -> keys_distinct (filter f r) = true.
Proof.
  rewrite !keys_distinct_nodup. intros H.
  induction r as [|[k s] r IH]; simpl; [constructor|].
  inversion H as [|? ? Hk Hnd]; subst.
  destruct (f (k, s)); simpl; [|auto].
  constructor; [|auto]. intros Hin. apply Hk.
  apply in_map_iff in Hin as ([k' s'] & Hk' & Hin). apply filter_In in Hin as [Hin _].
  apply in_map_iff. exists (k', s'). auto.
Qed.

Lemma reg_wf_filter (f : key * Scheduler -> bool) (r : registry) :
  reg_wf r = true -> reg_wf (filter f r) = true.
Proof.
  unfold reg_wf. rewrite !andb_true_iff. intros [Hc Hd]. split; [|apply keys_distinct_filter, Hd].
  apply forallb_forall. intros e He. apply filter_In in He as [He _].
  rewrite forallb_forall in Hc. apply Hc, He.
Qed.

Lemma reg_wf_find (r : registry) (k : key) (s : Scheduler) :
  reg_wf r = true -> reg_find r k = Some s ->
  registry_key (model_identifier s) (Some (model_args s)) = k.
Proof.
  unfold reg_wf. rewrite andb_true_iff. intros [Hc _] Hf.
  apply reg_find_in in Hf. rewrite forallb_forall in Hc. specialize (Hc _ Hf).
  unfold entry_consistent in Hc. apply key_eqb_spec in Hc. cbn in Hc. congruence.
Qed.

Lemma reg_find_remove (r : registry) (k k' : key) :
  reg_find (filter (fun ks => negb (key_eqb k (fst ks))) r) k'
  = if key_eqb k' k then None else reg_find r k'.
Proof.
  induction r as [|[k0 s0] r IH]; simpl; [destruct (key_eqb k' k); reflexivity|].
  destruct (key_eqb k k0) eqn:E; simpl.
  - apply key_eqb_spec in E as <-. rewrite IH. destruct (key_eqb k' k); reflexivity.
  - rewrite IH. destruct (key_eqb k' k0) eqn:E'; [|reflexivity].
    apply key_eqb_spec in E' as ->. rewrite (proj2 (key_eqb_false k0 k)); [reflexivity|].
    apply key_eqb_false in E. congruence.
Qed.

(** On a consistent registry, [dealloc] pops exactly the scheduler's own
    entry. *)
Lemma dealloc_wf (r : registry) (k : key) (s : Scheduler) :
  reg_wf r = true -> reg_find r k = Some s ->
  dealloc r k s =
    (filter (fun ks => negb (key_eqb k (fst ks))) r,
     if sync s then Some (AttributeError "'Scheduler' object has no attribute 'worker_thread'")
     else None).
Proof.
  intros Hwf Hf. unfold dealloc. rewrite (reg_wf_find _ _ _ Hwf Hf).
  unfold reg_pop. rewrite Hf. rewrite reg_find_remove, key_eqb_refl.
  destruct (sync s); reflexivity.
Qed.

Lemma remove_keys_cons (k : key) (ks : list key) (r : registry) :
  remove_keys ks (filter (fun e => negb (key_eqb k (fst e))) r) = remove_keys (k :: ks) r.
Proof.
  unfold remove_keys. induction r as [|e r IH]; simpl; [reflexivity|].
  destruct (key_eqb k (fst e)); simpl; [exact IH|].
  destruct (existsb _ ks); simpl; [exact IH|f_equal; exact IH].
Qed.

Lemma gc_loop_wf (ks : list key) (r : registry) :
  reg_wf r = true ->
  exists ks', (forall k, In k ks' -> In k ks) /\ fst (gc_loop r ks) = remove_keys ks' r /\
    (snd (gc_loop r ks) = None \/ snd (gc_loop r ks) = Some KeyError \/
     exists m, snd (gc_loop r ks) = Some (AttributeError m)).
Proof.
  revert r. induction ks as [|k ks IH]; intros r Hwf; simpl.
  - exists []. split; [tauto|]. split; [unfold remove_keys; simpl; symmetry; apply forallb_filter_id; apply forallb_forall; reflexivity|]. auto.
  - destruct (reg_find r k) as [s|] eqn:Ef.
    + rewrite (dealloc_wf _ _ _ Hwf Ef). destruct (sync s); cbv iota beta.
      * exists [k]. split; [intros k' [<-|[]]; auto|]. split.
        -- simpl. rewrite <- remove_keys_cons. unfold remove_keys. simpl.
           symmetry. apply forallb_filter_id. apply forallb_forall. reflexivity.
        -- right; right. eexists; reflexivity.
      * destruct (IH _ (reg_wf_filter (fun ks => negb (key_eqb k (fst ks))) r Hwf)) as (ks' & Hsub & Hr & Hs).
        exists (k :: ks'). split; [intros k' [<-|H]; [left; reflexivity|right; apply Hsub, H]|]. split; [rewrite Hr; apply remove_keys_cons|exact Hs].
    + exists []. split; [intros ? []|]. split; [|auto].
      unfold remove_keys; simpl; symmetry; apply forallb_filter_id; apply forallb_forall; reflexivity.
Qed.

Lemma gc_loop_found_step (r : registry) (k : key) (ks : list key) :
  NoDup (k :: ks) -> (forall k', In k' (k :: ks) -> exists s, reg_find r k' = Some s) ->
  forall k', In k' ks ->
    reg_find (filter (fun e => negb (key_eqb k (fst e))) r) k' = reg_find r k'.
Proof.
  intros Hnd _ k' Hk'. rewrite reg_find_remove.
  destruct (key_eqb k' k) eqn:E; [|reflexivity].
  apply key_eqb_spec in E as ->. inversion Hnd. contradiction.
Qed.

Lemma gc_loop_async (ks : list key) (r : registry) :
  reg_wf r = true -> NoDup ks ->
  (forall k, In k ks -> exists s, reg_find r k = Some s /\ sync s = false) ->
  gc_loop r ks = (remove_keys ks r, None).
Proof.
  revert r. induction ks as [|k ks IH]; intros r Hwf Hnd Hf; simpl.
  - f_equal. unfold remove_keys. simpl. symmetry. apply forallb_filter_id, forallb_forall. reflexivity.
  - destruct (Hf k (or_introl eq_refl)) as (s & Hs & Hsync). rewrite Hs.
    rewrite (dealloc_wf _ _ _ Hwf Hs), Hsync. cbv iota beta.
    rewrite IH.
    + rewrite remove_keys_cons. reflexivity.
    + apply reg_wf_filter, Hwf.
    + inversion Hnd; assumption.
    + intros k' Hk'. rewrite (gc_loop_found_step r k ks Hnd) by
        (exact Hk' || (intros k'' Hk''; destruct (Hf k'' Hk'') as (s' & ? & _); eauto)).
      apply Hf. right. exact Hk'.
Qed.

Lemma gc_loop_found (ks : list key) (r : registry) :
  reg_wf r = true -> NoDup ks ->
  (forall k, In k ks -> exists s, reg_find r k = Some s) ->
  snd (gc_loop r ks) <> Some KeyError /\
  ((exists k s, In k ks /\ reg_find r k = Some s /\ sync s = true) ->
   exists m, snd (gc_loop r ks) = Some (AttributeError m)).
Proof.
  revert r. induction ks as [|k ks IH]; intros r Hwf Hnd Hf; simpl.
  - split; [discriminate|]. intros (k & s & [] & _).
  - destruct (Hf k (or_introl eq_refl)) as (s & Hs). rewrite Hs.
    rewrite (dealloc_wf _ _ _ Hwf Hs).
    destruct (sync s) eqn:Hsync; cbv iota beta.
    + split; [discriminate|]. intros _. eexists. reflexivity.
    + assert (Hstep := gc_loop_found_step r k ks Hnd Hf).
      destruct (IH (filter (fun e => negb (key_eqb k (fst e))) r)) as [IH1 IH2].
      * apply reg_wf_filter, Hwf.
      * inversion Hnd; assumption.
      * intros k' Hk'. rewrite (Hstep k' Hk'). apply Hf. right. exact Hk'.
      * split; [exact IH1|]. intros (k' & s' & [<-|Hk'] & Hs' & Hsy').
        -- congruence.
        -- apply IH2. exists k', s'. split; [exact Hk'|]. rewrite (Hstep k' Hk'). auto.
Qed.

Lemma idle_keys_nodup (r : registry) :
  keys_distinct r = true -> NoDup (map fst (filter idle r)).
Proof. intros Hd. apply keys_distinct_nodup, keys_distinct_filter, Hd. Qed.

Lemma idle_keys_found (r : registry) (k : key) :
  keys_distinct r = true -> In k (map fst (filter idle r)) ->
  exists s, reg_find r k = Some s /\ idle (k, s) = true.
Proof.
  intros Hd Hk. apply in_map_iff in Hk as ([k' s] & <- & Hin). apply filter_In in Hin as [Hin Hi].
  exists s. split; [apply in_reg_find; assumption|exact Hi].
Qed.

Lemma remove_idle_keys (r : registry) :
  keys_distinct r = true ->
  remove_keys (map fst (filter idle r)) r = filter (fun e => negb (idle e)) r.
Proof.
  intros Hd. unfold remove_keys. apply filter_ext_in. intros e He. f_equal.
  destruct (idle e) eqn:Hi.
  - apply existsb_exists. exists (fst e). split; [|apply key_eqb_refl].
    apply in_map. apply filter_In. auto.
  - apply not_true_iff_false. intros Hex. apply existsb_exists in Hex as (k & Hk & Hke).
    apply key_eqb_spec in Hke. subst k.
    apply in_map_iff in Hk as (e' & He'k & Hin). apply filter_In in Hin as [Hin Hi'].
    rewrite (keys_distinct_same r e' e Hd Hin He He'k) in Hi'. congruence.
Qed.

Lemma reg_wf_distinct (r : registry) : reg_wf r = true -> keys_distinct r = true.
Proof. unfold reg_wf. rewrite andb_true_iff. tauto. Qed.

Lemma gc_spec (n : nat) (r : registry) (Hwf : reg_wf r = true) :
  reg_wf (fst (gc n r)) = true /\
  (snd (gc n r) = None \/ exists m, snd (gc n r) = Some (AttributeError m)) /\
  (forall e, In e r -> idle e = false -> In e (fst (gc n r))) /\
  (forallb (fun e => negb (idle e && sync (snd e))) r = true ->
     gc n r = (if Nat.leb n (List.length r) then filter (fun e => negb (idle e)) r else r, None)) /\
  (n <= List.length r -> (exists e, In e r /\ idle e = true /\ sync (snd e) = true) ->
     exists m, snd (gc n r) = Some (AttributeError m)).
Proof.
  assert (Hd := reg_wf_distinct r Hwf).
  assert (Hnd := idle_keys_nodup r Hd).
  assert (Hfound : forall k, In k (map fst (filter idle r)) -> exists s, reg_find r k = Some s).
  { intros k Hk. destruct (idle_keys_found r k Hd Hk) as (s & ? & _). eauto. }
  destruct (gc_loop_found _ r Hwf Hnd Hfound) as [Hnk Hattr].
  change (fun ks : key * Scheduler => Nat.eqb (List.length (users (snd ks))) 0) with idle.
  unfold gc.
  change (fun ks : key * Scheduler => Nat.eqb (List.length (users (snd ks))) 0) with idle.
  destruct (Nat.leb_spec n (List.length r)) as [Hle|Hlt].
  - destruct (gc_loop_wf (map fst (filter idle r)) r Hwf) as (ks' & Hsub & Hr & Herr).
    split; [rewrite Hr; apply reg_wf_filter, Hwf|].
    split; [destruct Herr as [H|[H|H]]; [left; exact H|contradiction|right; exact H]|].
    split.
    { intros e He Hi. rewrite Hr. unfold remove_keys. apply filter_In. split; [exact He|].
      apply negb_true_iff, not_true_iff_false. intros Hex.
      apply existsb_exists in Hex as (k & Hk & Hke). apply key_eqb_spec in Hke. subst k.
      apply Hsub in Hk. apply in_map_iff in Hk as (e' & He'k & Hin).
      apply filter_In in Hin as [Hin Hi'].
      rewrite (keys_distinct_same r e' e Hd Hin He He'k) in Hi'. congruence. }
    split.
    + intros Hall. rewrite gc_loop_async; [rewrite remove_idle_keys by exact Hd; reflexivity|exact Hwf|exact Hnd|].
      intros k Hk. destruct (idle_keys_found r k Hd Hk) as (s & Hs & Hi). exists s. split; [exact Hs|].
      rewrite forallb_forall in Hall. specialize (Hall (k, s) (reg_find_in _ _ _ Hs)).
      rewrite Hi in Hall. cbn in Hall. apply negb_true_iff, Hall.
    + intros _ (e & He & Hi & Hs). apply Hattr. exists (fst e), (snd e).
      split; [apply in_map, filter_In; auto|].
      split; [apply in_reg_find; [exact Hd|destruct e; exact He]|exact Hs].
  - split; [exact Hwf|]. split; [left; reflexivity|]. split; [auto|]. split; [reflexivity|lia].
Qed.

(** [Scheduler.gc(n)] on a consistent registry (every scheduler stored
    under the key [dealloc] recomputes, no key twice) keeps it consistent
    and never unloads a scheduler that has users. The only exception it can
    raise is the [AttributeError] of joining the missing worker thread of an
    idle [sync] scheduler, and it does raise it when one is idle and at
    least [n] schedulers are loaded. Without idle [sync] schedulers the
    result is the registry without its idle schedulers when at least [n]
    are loaded, the registry unchanged otherwise. *)
Theorem gc_consistent (n : nat) (r : registry) (Hwf : reg_wf r = true) :
  reg_wf (fst (gc n r)) = true /\
  (snd (gc n r) = None \/ exists m, snd (gc n r) = Some (AttributeError m)) /\
  (forall e, In e r -> idle e = false -> In e (fst (gc n r))) /\
  (forallb (fun e => negb (idle e && sync (snd e))) r = true ->
     gc n r = (if Nat.leb n (List.length r) then filter (fun e => negb (idle e)) r else r, None)) /\
  (n <= List.length r -> (exists e, In e r /\ idle e = true /\ sync (snd e) = true) ->
     exists m, snd (gc n r) = Some (AttributeError m)).
Proof. exact (gc_spec n r Hwf). Qed.

Lemma reg_set_keys (r : registry) (k : key) (v : Scheduler) :
  map fst (reg_set r k v) = match reg_find r k with Some _ => map fst r | None => (map fst r ++ [k])%list end.
Proof.
  induction r as [|[k' s'] r IH]; simpl; [reflexivity|].
  destruct (key_eqb k k') eqn:E; simpl; [reflexivity|]. rewrite IH.
  destruct (reg_find r k); reflexivity.
Qed.

Lemma keys_distinct_set (r : registry) (k : key) (v : Scheduler) :
  keys_distinct r = true -> keys_distinct (reg_set r k v) = true.
Proof.
  rewrite !keys_distinct_nodup, reg_set_keys. destruct (reg_find r k) eqn:Ef; [auto|].
  intros Hnd. apply reg_find_none in Ef. apply NoDup_app; auto.
  - repeat constructor. simpl. tauto.
  - intros x Hx [<-|[]]. contradiction.
Qed.

Lemma in_reg_set (r : registry) (k : key) (v : Scheduler) (e : key * Scheduler) :
  keys_distinct r = true -> In e (reg_set r k v) -> e = (k, v) \/ (In e r /\ fst e <> k).
Proof.
  rewrite keys_distinct_nodup.
  induction r as [|[k' s'] r IH]; simpl; intros Hnd.
  - intros [<-|[]]. auto.
  - inversion Hnd as [|? ? Hk' Hnd']; subst.
    destruct (key_eqb k k') eqn:E.
    + apply key_eqb_spec in E as <-. intros [<-|Hin]; [auto|].
      right. split; [auto|]. intros He. apply Hk'. rewrite <- He. apply in_map, Hin.
    + apply key_eqb_false in E. intros [<-|Hin]; [right; split; [auto|cbn; congruence]|].
      destruct (IH Hnd' Hin) as [->|[H1 H2]]; auto.
Qed.

Lemma in_reg_set_keep (r : registry) (k : key) (v : Scheduler) (e : key * Scheduler) :
  In e r -> fst e <> k -> In e (reg_set r k v).
Proof.
  induction r as [|[k' s'] r IH]; simpl; [tauto|].
  intros [<-|Hin] Hne.
  - cbn in Hne. rewrite (proj2 (key_eqb_false k k')) by congruence. left. reflexivity.
  - destruct (key_eqb k k'); right; [exact Hin|apply IH; auto].
Qed.

Lemma reg_find_set_same (r : registry) (k : key) (v : Scheduler) :
  reg_find (reg_set r k v) k = Some v.
Proof.
  induction r as [|[k' s'] r IH]; simpl; [rewrite key_eqb_refl; reflexivity|].
  destruct (key_eqb k k') eqn:E; simpl; rewrite E; [reflexivity|exact IH].
Qed.

Lemma reg_wf_set (r : registry) (k : key) (v : Scheduler) :
  reg_wf r = true -> entry_consistent (k, v) = true -> reg_wf (reg_set r k v) = true.
Proof.
  unfold reg_wf. rewrite !andb_true_iff. intros [Hc Hd] Hkv.
  split; [|apply keys_distinct_set, Hd].
  apply forallb_forall. intros e He. destruct (in_reg_set r k v e Hd He) as [->|[Hin _]]; [exact Hkv|].
  rewrite forallb_forall in Hc. apply Hc, Hin.
Qed.

Lemma touch_consistent (k : key) (s : Scheduler) (user : option nat) (now : Z) :
  entry_consistent (k, s) = true -> entry_consistent (k, touch s user now) = true.
Proof. unfold entry_consistent. cbn. tauto. Qed.

Lemma touch_users (s : Scheduler) (user : option nat) (now : Z) (u : nat) :
  In u (users (touch s user now)) <-> In u (users s) \/ user = Some u.
Proof.
  destruct user as [u'|]; cbn [touch users].
  - destruct (existsb (Nat.eqb u') (users s)) eqn:E.
    + apply existsb_exists in E as (x & Hx & Hxe). apply Nat.eqb_eq in Hxe. subst x.
      split; [auto|intros [H|[= ->]]; auto].
    + rewrite in_app_iff. simpl. split; [intros [H|[<-|[]]]; auto|intros [H|[= ->]]; auto].
  - split; [auto|intros [H|H]; [exact H|discriminate]].
Qed.

(** The common tail of [instance]: the entry [k] is touched, then [gc(2)]
    runs. *)
Lemma instance_tail (r1 : registry) (k : key) (s1 : Scheduler) (user : option nat) (now : Z) :
  reg_wf r1 = true -> reg_find r1 k = Some s1 ->
  let r2 := reg_set r1 k (touch s1 user now) in
  reg_wf (fst (gc 2 r2)) = true /\
  (snd (gc 2 r2) = None \/ exists m, snd (gc 2 r2) = Some (AttributeError m)) /\
  (forall e, In e r1 -> fst e <> k -> idle e = false -> In e (fst (gc 2 r2))) /\
  (forall u, user = Some u -> reg_find (fst (gc 2 r2)) k = Some (touch s1 user now)).
Proof.
  intros Hwf Hf r2.
  assert (Hc : entry_consistent (k, s1) = true).
  { unfold reg_wf in Hwf. apply andb_true_iff in Hwf as [Hc _]. rewrite forallb_forall in Hc.
    apply Hc, reg_find_in, Hf. }
  assert (Hwf2 : reg_wf r2 = true) by (apply reg_wf_set; [exact Hwf|apply touch_consistent, Hc]).
  destruct (gc_spec 2 r2 Hwf2) as (Hw3 & Herr & Hkeep & _).
  split; [exact Hw3|]. split; [exact Herr|]. split.
  - intros e He Hne Hi. apply Hkeep; [apply in_reg_set_keep; auto|exact Hi].
  - intros u ->. apply in_reg_find; [apply reg_wf_distinct, Hw3|].
    apply Hkeep; [apply reg_find_in, reg_find_set_same|].
    unfold idle. cbn [snd]. apply Nat.eqb_neq. intros Hl. apply length_zero_iff_nil in Hl.
    assert (Hu : In u (users (touch s1 (Some u) now))) by (apply touch_users; auto).
    rewrite Hl in Hu. exact Hu.
Qed.

(** [Scheduler.instance(mid, d, user, only_existing, sync)] with a dict
    [d] (not [None]) on a consistent registry leaves it consistent and keeps every other
    scheduler that has users. It either refuses by policy (only when
    [only_existing] is set and the key is absent, leaving the registry as it
    was) or returns the key of [(mid, d)], possibly after [gc()] raised the
    [AttributeError] of an idle [sync] scheduler. For a [user], the
    scheduler under that key then has identifier [mid], arguments [d],
    [last_use] the current time, its old users plus [user], and its old
    queue and [sync] flag. *)
Theorem instance_consistent (r : registry) (mid : string) (d : pydict) (user : option nat)
  (only is_sync : bool) (now : Z) (r' : registry) (res : result key)
  (Hwf : reg_wf r = true)
  (Hi : instance r mid (Some d) user only is_sync now = (r', res)) :
  let k := registry_key mid (Some d) in
  reg_wf r' = true /\
  (forall e, In e r -> fst e <> k -> idle e = false -> In e r') /\
  ((only = true /\ reg_find r k = None /\ r' = r /\
    res = Err (LMTPCannotLoadModelByPolicy
                 ("Model '" ++ mid ++ "' is not loaded and server is not configured to load it on demand."))) \/
   ((res = Ok k \/ exists m, res = Err (AttributeError m)) /\
    forall u, user = Some u ->
      exists s, reg_find r' k = Some s /\ model_identifier s = mid /\ model_args s = d /\
        last_use s = now /\
        (forall u', In u' (users s) <->
           u' = u \/ exists s0, reg_find r k = Some s0 /\ In u' (users s0)) /\
        (forall s0, reg_find r k = Some s0 -> queue s = queue s0 /\ sync s = sync s0))).
Proof.
  intros k. unfold instance in Hi. fold k in Hi.
  destruct (reg_find r k) as [s0|] eqn:Ef.
  - cbv iota beta in Hi. rewrite Ef in Hi.
    destruct (instance_tail r k s0 user now Hwf Ef) as (Hw3 & Herr & Hkeep & Hfind).
    destruct (gc 2 (reg_set r k (touch s0 user now))) as [r3 o] eqn:Egc. cbn [fst snd] in *.
    assert (Hr' : r' = r3) by (destruct o; congruence). subst r3.
    split; [exact Hw3|]. split; [exact Hkeep|]. right. split.
    + destruct Herr as [->|[m ->]]; [left; congruence|right; exists m; congruence].
    + intros u Hu. exists (touch s0 user now). split; [apply Hfind with u; exact Hu|].
      subst user. cbn [touch model_identifier model_args last_use queue sync].
      pose proof (reg_wf_find r k s0 Hwf Ef) as Hk. unfold k, registry_key in Hk.
      injection Hk as Hm Hp. split; [exact Hm|]. split.
      { apply app_inj_tail in Hp as [Hp _]. apply pickle_items_inj in Hp. exact Hp. }
      split; [reflexivity|]. split.
      * intros u'. rewrite touch_users. split.
        -- intros [H|[= ->]]; [right; exists s0; auto|left; reflexivity].
        -- intros [->|(s1 & [= <-] & H)]; [right; reflexivity|left; exact H].
      * intros s1 [= <-]. split; reflexivity.
  - destruct only.
    + injection Hi as <- <-. split; [exact Hwf|]. split; [auto|]. left. auto.
    + cbv iota beta in Hi.
      set (r1 := reg_set r k (new_scheduler mid (Some d) is_sync now)) in Hi.
      assert (Hwf1 : reg_wf r1 = true).
      { apply reg_wf_set; [exact Hwf|]. unfold entry_consistent. cbn. apply key_eqb_refl. }
      assert (Hf1 : reg_find r1 k = Some (new_scheduler mid (Some d) is_sync now)) by apply reg_find_set_same.
      rewrite Hf1 in Hi.
      destruct (instance_tail r1 k _ user now Hwf1 Hf1) as (Hw3 & Herr & Hkeep & Hfind).
      destruct (gc 2 (reg_set r1 k (touch (new_scheduler mid (Some d) is_sync now) user now)))
        as [r3 o] eqn:Egc. cbn [fst snd] in *.
      assert (Hr' : r' = r3) by (destruct o; congruence). subst r3.
      split; [exact Hw3|]. split.
      { intros e He Hne Hie. apply Hkeep; [apply in_reg_set_keep; auto|exact Hne|exact Hie]. }
      right. split.
      * destruct Herr as [->|[m ->]]; [left; congruence|right; exists m; congruence].
      * intros u Hu. eexists. split; [apply Hfind with u; exact Hu|].
        subst user. cbn. split; [reflexivity|]. split; [reflexivity|]. split; [reflexivity|].
        split; [|intros s1 [=]].
        intros u'. split; [intros [<-|[]]; left; reflexivity|].
        intros [->|(s1 & H & _)]; [left; reflexivity|discriminate].
Qed.

Lemma all_async_no_idle_sync (r : registry) :
  all_async r = true -> forallb (fun e => negb (idle e && sync (snd e))) r = true.
Proof.
  unfold all_async. rewrite !forallb_forall. intros H e He. specialize (H e He).
  apply negb_true_iff in H. rewrite H, andb_false_r. reflexivity.
Qed.



Lemma gc_async (n : nat) (r : registry) :
  reg_wf r = true -> all_async r = true ->
  gc n r = (if Nat.leb n (List.length r) then filter (fun e => negb (idle e)) r else r, None).
Proof.
  intros Hwf Ha. destruct (gc_spec n r Hwf) as (_ & _ & _ & H & _).
  apply H, all_async_no_idle_sync, Ha.
Qed.

Lemma gc_async_in (n : nat) (r : registry) (e : key * Scheduler) :
  reg_wf r = true -> all_async r = true -> In e (fst (gc n r)) -> In e r.
Proof.
  intros Hwf Ha. rewrite (gc_async n r Hwf Ha). cbn [fst].
  destruct (Nat.leb n (List.length r)); [intros He; apply filter_In in He; apply He|auto].
Qed.





Lemma reg_set_split (pre post : registry) (k id : key) (s v : Scheduler) :
  key_eqb id k = false ->
  reg_set (pre ++ (k, s) :: post)%list id v =
    if existsb (fun e => key_eqb id (fst e)) pre
    then (reg_set pre id v ++ (k, s) :: post)%list
    else (pre ++ (k, s) :: reg_set post id v)%list.
Proof.
  intros Hk. induction pre as [|[k' s'] pre IH]; simpl; [rewrite Hk; reflexivity|].
  destruct (key_eqb id k'); simpl; [reflexivity|]. rewrite IH.
  destruct (existsb _ pre); reflexivity.
Qed.

Lemma reg_find_split (pre post : registry) (k id : key) (s : Scheduler) :
  existsb (fun e => key_eqb id (fst e)) pre = true ->
  reg_find (pre ++ (k, s) :: post)%list id = reg_find pre id.
Proof.
  induction pre as [|[k' s'] pre IH]; simpl; [discriminate|].
  destruct (key_eqb id k'); simpl; [reflexivity|exact IH].
Qed.

Lemma reg_find_in_pre (pre : registry) (id : key) (v : Scheduler) :
  reg_find pre id = Some v -> In (id, v) pre.
Proof. apply reg_find_in. Qed.

Lemma busy_reg_set (pre : registry) (id : key) (v : Scheduler) :
  forallb (fun e => negb (idle e)) pre = true -> idle (id, v) = false ->
  forallb (fun e => negb (idle e)) (reg_set pre id v) = true.
Proof.
  intros Hp Hv. induction pre as [|[k' s'] pre IH]; simpl.
  - rewrite Hv. reflexivity.
  - simpl in Hp. apply andb_true_iff in Hp as [H1 H2].
    destruct (key_eqb id k'); simpl.
    + unfold idle in Hv |- *. cbn in Hv |- *. rewrite Hv. exact H2.
    + rewrite H1. apply IH, H2.
Qed.

Lemma touch_busy (id : key) (s : Scheduler) (user : option nat) (now : Z) :
  idle (id, s) = false -> idle (id, touch s user now) = false.
Proof.
  unfold idle. cbn [snd]. destruct (users s) as [|u us] eqn:Eu; [discriminate|]. intros _.
  assert (Hu : In u (users (touch s user now))) by (apply touch_users; left; rewrite Eu; left; reflexivity).
  destruct (users (touch s user now)); [destruct Hu|reflexivity].
Qed.

Lemma first_idle_touch (r : registry) (k id : key) (s s0 : Scheduler) (user : option nat) (now : Z) :
  keys_distinct r = true -> key_eqb id k = false -> first_idle_at r k s ->
  reg_find r id = Some s0 ->
  first_idle_at (reg_set r id (touch s0 user now)) k s.
Proof.
  intros Hd Hk (pre & post & -> & Hp) Hf.
  rewrite reg_set_split by exact Hk.
  destruct (existsb (fun e => key_eqb id (fst e)) pre) eqn:Ex.
  - exists (reg_set pre id (touch s0 user now)), post. split; [reflexivity|].
    apply busy_reg_set; [exact Hp|]. apply touch_busy.
    rewrite reg_find_split in Hf by exact Ex. apply reg_find_in in Hf.
    rewrite forallb_forall in Hp. apply Hp in Hf. apply negb_true_iff, Hf.
  - exists pre, (reg_set post id (touch s0 user now)). split; [reflexivity|exact Hp].
Qed.

Lemma first_idle_new (r : registry) (k id : key) (s v : Scheduler) :
  key_eqb id k = false -> first_idle_at r k s -> reg_find r id = None ->
  first_idle_at (reg_set r id v) k s.
Proof.
  intros Hk (pre & post & -> & Hp) Hf.
  rewrite reg_set_split by exact Hk.
  destruct (existsb (fun e => key_eqb id (fst e)) pre) eqn:Ex.
  - exfalso. apply existsb_exists in Ex as ([k' s'] & Hin & He). apply key_eqb_spec in He.
    cbn in He. subst k'. apply reg_find_none in Hf. apply Hf. rewrite map_app. apply in_or_app.
    left. apply in_map_iff. exists (id, s'). auto.
  - exists pre, (reg_set post id v). split; [reflexivity|exact Hp].
Qed.

Lemma reg_find_set_other (r : registry) (k k' : key) (v : Scheduler) :
  key_eqb k' k = false -> reg_find (reg_set r k v) k' = reg_find r k'.
Proof.
  intros Hne. induction r as [|[k0 s0] r IH]; simpl.
  - rewrite Hne. reflexivity.
  - destruct (key_eqb k k0) eqn:E; simpl.
    + apply key_eqb_spec in E. subst k0. rewrite Hne. reflexivity.
    + destruct (key_eqb k' k0); [reflexivity|exact IH].
Qed.

Lemma first_idle_in (r : registry) (k : key) (s : Scheduler) : first_idle_at r k s -> In (k, s) r.
Proof. intros (pre & post & -> & _). apply in_or_app. right. left. reflexivity. Qed.

Lemma first_idle_len (r : registry) (k : key) (s : Scheduler) : first_idle_at r k s -> 1 <= List.length r.
Proof. intros (pre & post & -> & _). rewrite length_app. cbn. lia. Qed.

(** The core of the stale-entry behaviour: [gc] stops at the first idle
    entry when [dealloc] cannot pop the key recomputed from it. *)
Lemma gc_stale (n : nat) (r : registry) (k : key) (s : Scheduler) :
  keys_distinct r = true -> first_idle_at r k s -> users s = [] ->
  reg_find r (registry_key (model_identifier s) (Some (model_args s))) = None ->
  n <= List.length r ->
  gc n r = (r, Some KeyError).
Proof.
  intros Hd Hfi Hu Habs Hn.
  assert (Hin := first_idle_in _ _ _ Hfi).
  destruct Hfi as (pre & post & Hr & Hp).
  unfold gc. apply Nat.leb_le in Hn. rewrite Hn.
  assert (Hf : filter (fun ks => Nat.eqb (List.length (users (snd ks))) 0) r =
               (k, s) :: filter (fun ks => Nat.eqb (List.length (users (snd ks))) 0) post).
  { rewrite Hr, filter_app.
    replace (filter (fun ks => Nat.eqb (List.length (users (snd ks))) 0) pre) with (@nil (key * Scheduler)).
    - cbn. rewrite Hu. reflexivity.
    - clear Hr. induction pre as [|e pre IH]; [reflexivity|].
      simpl in Hp. apply andb_true_iff in Hp as [H1 H2]. unfold idle in H1. simpl.
      destruct (Nat.eqb _ 0); [discriminate|]. apply IH, H2. }
  rewrite Hf. cbn [map fst gc_loop].
  rewrite (in_reg_find r k s Hd Hin).
  unfold dealloc, reg_pop. rewrite Habs. reflexivity.
Qed.

(** A scheduler created by [Scheduler.instance(m, None, ...)] is stored
    under the key of [pickle.dumps(None)] but holds [model_args = {}], so
    [dealloc] recomputes the key of [pickle.dumps({})]. Once it is the first
    idle entry of the registry (and no scheduler is stored under that
    recomputed key), [gc(n)] with at least [n] schedulers loaded raises
    [KeyError] and leaves the registry unchanged: no idle scheduler is
    unloaded at all. *)
Theorem gc_none_args_key_error (n : nat) (r : registry) (m : string) (s : Scheduler)
  (Hd : keys_distinct r = true)
  (Hfirst : first_idle_at r (registry_key m None) s)
  (Hmid : model_identifier s = m) (Hargs : model_args s = []) (Hidle : users s = [])
  (Habs : reg_find r (registry_key m (Some [])) = None)
  (Hn : n <= List.length r) :
  gc n r = (r, Some KeyError).
Proof.
  apply (gc_stale n r (registry_key m None) s Hd Hfirst Hidle); [|exact Hn].
  rewrite Hmid, Hargs. exact Habs.
Qed.

(** The same registry state makes every later [Scheduler.instance] call
    for a key other than [(m, pickle(None))] and [(m, pickle({}))] fail:
    it is either refused by the loading policy, or raises [KeyError] from
    its [gc()] while the stale scheduler stays registered. *)
Theorem instance_none_args_key_error (r : registry) (m : string) (s : Scheduler)
  (mid : string) (margs : option pydict) (user : option nat) (only is_sync : bool) (now : Z)
  (Hd : keys_distinct r = true)
  (Hfirst : first_idle_at r (registry_key m None) s)
  (Hmid : model_identifier s = m) (Hargs : model_args s = []) (Hidle : users s = [])
  (Habs : reg_find r (registry_key m (Some [])) = None)
  (Hk : registry_key mid margs <> registry_key m None)
  (Hk' : registry_key mid margs <> registry_key m (Some [])) :
  let res := instance r mid margs user only is_sync now in
  (snd res = Err KeyError /\ In (registry_key m None, s) (fst res)) \/
  (only = true /\ fst res = r /\ exists msg, snd res = Err (LMTPCannotLoadModelByPolicy msg)).
Proof.
  intros res. unfold res. clear res. unfold instance.
  set (id := registry_key mid margs) in *.
  set (k := registry_key m None) in *.
  set (kr := registry_key m (Some [])) in *.
  assert (Hidk : key_eqb id k = false) by (apply key_eqb_false, Hk).
  assert (Hidr : key_eqb kr id = false) by (apply key_eqb_false; congruence).
  destruct (reg_find r id) as [s0|] eqn:Ef.
  - cbv iota beta. rewrite Ef.
    set (r2 := reg_set r id (touch s0 user now)).
    assert (Hd2 : keys_distinct r2 = true) by apply keys_distinct_set, Hd.
    assert (Hf2 : first_idle_at r2 k s) by (apply first_idle_touch; assumption).
    assert (Ha2 : reg_find r2 kr = None) by (unfold r2; rewrite reg_find_set_other; assumption).
    assert (Hl2 : 2 <= List.length r2).
    { assert (Hl : List.length r2 = List.length r)
        by (unfold r2; rewrite <- !(length_map fst), reg_set_keys, Ef; reflexivity).
      rewrite Hl. destruct Hfirst as (pre & post & Hr & _).
      apply reg_find_in in Ef. rewrite Hr in Ef |- *. rewrite length_app. cbn.
      apply in_app_or in Ef as [Hin|[He|Hin]].
      - destruct pre; [destruct Hin|cbn; lia].
      - exfalso. exact (Hk (eq_sym (f_equal fst He))).
      - destruct post; [destruct Hin|cbn; lia]. }
    destruct (gc 2 r2) as [r3 oe] eqn:Egc.
    rewrite (gc_stale 2 r2 k s Hd2 Hf2 Hidle) in Egc by (rewrite ?Hmid, ?Hargs; assumption).
    injection Egc as <- <-. left. split; [reflexivity|]. apply first_idle_in, Hf2.
  - destruct only.
    + right. split; [reflexivity|]. split; [reflexivity|]. eexists. reflexivity.
    + cbv iota beta.
      set (r1 := reg_set r id (new_scheduler mid margs is_sync now)).
      assert (Hd1 : keys_distinct r1 = true) by apply keys_distinct_set, Hd.
      assert (Hf1 : first_idle_at r1 k s) by (apply first_idle_new; assumption).
      assert (Hn1 : reg_find r1 id = Some (new_scheduler mid margs is_sync now)) by apply reg_find_set_same. rewrite Hn1.
      set (r2 := reg_set r1 id (touch (new_scheduler mid margs is_sync now) user now)).
      assert (Hd2 : keys_distinct r2 = true) by apply keys_distinct_set, Hd1.
      assert (Hf2 : first_idle_at r2 k s).
      { apply first_idle_touch; assumption. }
      assert (Ha2 : reg_find r2 kr = None).
      { unfold r2, r1. rewrite !reg_find_set_other by assumption. exact Habs. }
      assert (Hl2 : 2 <= List.length r2).
      { assert (Hl : List.length r2 = S (List.length r)).
        { unfold r2, r1. rewrite <- !(length_map fst), reg_set_keys, reg_find_set_same, reg_set_keys, Ef.
          rewrite length_app. cbn. lia. }
        rewrite Hl. apply first_idle_len in Hfirst. lia. }
      destruct (gc 2 r2) as [r3 oe] eqn:Egc.
      rewrite (gc_stale 2 r2 k s Hd2 Hf2 Hidle) in Egc by (rewrite ?Hmid, ?Hargs; assumption).
      injection Egc as <- <-. left. split; [reflexivity|]. apply first_idle_in, Hf2.
Qed.

(** ** TokenStreamer *)

Lemma run_rows_err (body : nat -> result (list event)) (P : exn -> Prop) (rows : list nat) (e : exn) :
  (forall i e', body i = Err e' -> P e') -> snd (run_rows body rows) = Some e -> P e.
Proof.
  intros Hb. induction rows as [|i rs IH]; simpl; [discriminate|].
  destruct (body i) eqn:Ei; [|intros [= <-]; eapply Hb; eauto].
  destruct (run_rows body rs) as [evs' oe] eqn:Er. cbn [snd]. intros H. apply IH. exact H.
Qed.

Lemma nth_idx_err {A} (l : list A) (i : nat) (e : exn) : nth_idx l i = Err e -> e = IndexError.
Proof. unfold nth_idx. destruct (nth_error l i); [discriminate|intros [= <-]; reflexivity]. Qed.

Lemma py_index_err {A} (l : list A) (z : Z) (e : exn) : py_index l z = Err e -> e = IndexError.
Proof.
  unfold py_index. destruct (Z.ltb z 0); [destruct (Z.ltb _ 0); [intros [= <-]; reflexivity|]|];
  apply nth_idx_err.
Qed.

Lemma py_slice_upto_err {A} (l : list A) (v : pyval) (e : exn) : py_slice_upto l v = Err e -> e = TypeError.
Proof.
  unfold py_slice_upto. destruct v; simpl; congruence.
Qed.

Ltac bind_err H :=
  match type of H with
  | bind ?r _ = Err _ =>
      let E := fresh "E" in
      destruct r eqn:E; cbn [bind] in H; [bind_err H|injection H as <-]
  | _ => idtac
  end.

Lemma token_row_err (b : GenerateBatch) (eos : Z) (last : bool) (lt : list Z) (ls : list (list Z))
  (tops : list (list Z * list Z)) (i : nat) (e : exn) :
  token_row b eos last lt ls tops i = Err e -> lookup_exn e.
Proof.
  unfold token_row, lookup_exn. intros H. bind_err H; try discriminate H;
  first [left; eapply nth_idx_err; eassumption
        |left; eapply py_index_err; eassumption
        |right; eapply py_slice_upto_err; eassumption].
Qed.

(** [TokenStreamer.log_token] raises [InterruptedError] exactly when the
    streamer cancels, every call of the batch is cancelled and the reads
    done before the check ([input_ids[:, -1]], [scores[-1]], the
    [max(...)] of the [top_logprobs] values) succeed; it then puts no
    payload at all. So as long as one call of the batch is not cancelled,
    the cancelled calls keep receiving tokens. *)
Theorem token_log_token_interrupted (b : GenerateBatch) (eos : Z) (cancels : bool)
  (ids : list (list Z)) (scores : list (list (list Z))) (last : bool) :
  ((exists m, snd (token_log_token b eos cancels ids scores last) = Some (InterruptedError m)) <->
   (cancels = true /\ batch_cancelled b = true /\
    (exists lt, map_result py_last ids = Ok lt) /\ (exists ls, py_last scores = Ok ls) /\
    (exists mx, py_max (map (fun c => dict_get (kwargs c) "top_logprobs" (VInt 1)) (calls b)) = Ok mx))) /\
  (cancels = true -> batch_cancelled b = true ->
   (exists m, snd (token_log_token b eos cancels ids scores last) = Some (InterruptedError m)) ->
   token_log_token b eos cancels ids scores last = ([], Some (InterruptedError "inference calls cancelled"))).
Proof.
  unfold token_log_token.
  destruct (map_result py_last ids) as [lt|e1] eqn:E1; cbn [bind].
  2:{ assert (H1 : e1 = IndexError).
      { eapply (map_result_err py_last (fun e => e = IndexError)); [|exact E1].
        intros x e'. apply py_index_err. }
      subst e1. split; [split; [intros [m Hm]; discriminate Hm|intros (_ & _ & [lt' Hlt] & _); discriminate Hlt]|].
      intros _ _ [m Hm]. discriminate Hm. }
  destruct (py_last scores) as [ls|e2] eqn:E2; cbn [bind].
  2:{ assert (H2 : e2 = IndexError) by (eapply py_index_err; exact E2).
      subst e2. split; [split; [intros [m Hm]; discriminate Hm|intros (_ & _ & _ & [ls' Hls] & _); discriminate Hls]|].
      intros _ _ [m Hm]. discriminate Hm. }
  destruct (py_max _) as [mx|e3] eqn:E3; cbn [bind].
  2:{ assert (H3 : e3 = TypeError \/ exists m, e3 = ValueError m) by (eapply py_max_err; exact E3).
      split; [split; [intros [m Hm]; injection Hm as ->; destruct H3 as [H3|[m' H3]]; discriminate H3
                     |intros (_ & _ & _ & _ & [mx' Hmx]); discriminate Hmx]|].
      intros _ _ [m Hm]. injection Hm as ->. destruct H3 as [H3|[m' H3]]; discriminate H3. }
  destruct (batch_cancelled b && cancels) eqn:Ec.
  - apply andb_true_iff in Ec as [Hb Hc]. split; [|reflexivity].
    split; [|intros _; eexists; reflexivity].
    intros _. repeat split; eauto.
  - split; [|intros Hc Hb; rewrite Hb, Hc in Ec; discriminate Ec].
    split.
    + intros [m Hm]. exfalso.
      destruct (py_index_value mx) as [k|e4] eqn:E4; cbn [bind] in Hm.
      2:{ apply py_index_value_err in E4. subst e4. discriminate Hm. }
      assert (HP : lookup_exn (InterruptedError m)).
      { eapply run_rows_err; [|exact Hm]. intros i e'. apply token_row_err. }
      destruct HP as [HP|HP]; discriminate HP.
    + intros (Hc & Hb & _). rewrite Hb, Hc in Ec. discriminate Ec.
Qed.

Lemma run_rows_single (body : nat -> result (list event)) (P : nat -> event -> Prop)
  (rows : list nat) (evs : list event) :
  (forall i l, body i = Ok l -> exists ev, l = [ev] /\ P i ev) ->
  run_rows body rows = (evs, None) -> Forall2 P rows evs.
Proof.
  intros Hb. revert evs. induction rows as [|i rs IH]; intros evs; simpl.
  - intros [= <-]. constructor.
  - destruct (body i) as [l|e] eqn:Ei; [|discriminate].
    destruct (run_rows body rs) as [evs' oe] eqn:Er. intros [= <- ->].
    destruct (Hb i l Ei) as (ev & -> & Hp). cbn. constructor; [exact Hp|]. apply IH. reflexivity.
Qed.

(** [TokenStreamer.log_token] that raises nothing puts exactly one
    payload per row [i] of [input_ids], in row order, on the queue of
    [batch.calls[i]]. *)
Theorem token_log_token_one_per_row (b : GenerateBatch) (eos : Z) (cancels : bool)
  (ids : list (list Z)) (scores : list (list (list Z))) (last : bool)
  (Hok : snd (token_log_token b eos cancels ids scores last) = None) :
  Forall2 (fun i ev => exists c p, nth_error (calls b) i = Some c /\ ev = call_put c p)
    (seq 0 (List.length ids)) (fst (token_log_token b eos cancels ids scores last)).
Proof.
  revert Hok. unfold token_log_token.
  destruct (map_result py_last ids) as [lt|e1]; cbn [bind]; [|discriminate].
  destruct (py_last scores) as [ls|e2]; cbn [bind]; [|discriminate].
  destruct (py_max _) as [mx|e3]; cbn [bind]; [|discriminate].
  destruct (batch_cancelled b && cancels); [discriminate|].
  destruct (py_index_value mx) as [k|e4]; cbn [bind]; [|discriminate].
  destruct (run_rows _ _) as [evs oe] eqn:Er. cbn [snd fst]. intros ->.
  eapply run_rows_single; [|exact Er].
  intros i l Hi. unfold token_row in Hi. inv_bind Hi. injection Hi as <-.
  eexists. split; [reflexivity|]. eexists _, _. split; [|reflexivity].
  unfold nth_idx in *. match goal with H : (match nth_error (calls b) i with _ => _ end) = Ok _ |- _ =>
    destruct (nth_error (calls b) i) eqn:Ec; [injection H as ->; reflexivity|discriminate H] end.
Qed.

(** ** Generation modes *)

Lemma string_leb_trans (a b c : string) :
  String.leb a b = true -> String.leb b c = true -> String.leb a c = true.
Proof.
  unfold String.leb.
  destruct (String.compare a b) eqn:E1; try discriminate; intros _;
  destruct (String.compare b c) eqn:E2; try discriminate; intros _;
  destruct (String.compare a c) eqn:E3; try reflexivity;
  exfalso; refine (string_compare_not_gt_trans a b c _ _ E3); congruence.
Qed.

Lemma insert_item_perm (kv : string * pyval) (l : pydict) : Permutation (insert_item kv l) (kv :: l).
Proof.
  induction l as [|kv' l IH]; simpl; [reflexivity|].
  destruct (String.leb (fst kv) (fst kv')); [reflexivity|].
  rewrite IH. apply perm_swap.
Qed.

Lemma sorted_items_perm (d : pydict) : Permutation (sorted_items d) d.
Proof.
  unfold sorted_items. induction d as [|kv d IH]; simpl; [reflexivity|].
  rewrite insert_item_perm, IH. reflexivity.
Qed.

Lemma insert_item_sorted (kv : string * pyval) (l : pydict) :
  StronglySorted key_le l -> StronglySorted key_le (insert_item kv l).
Proof.
  induction 1 as [|kv' l Hs IH Hall]; simpl.
  - repeat constructor.
  - destruct (String.leb (fst kv) (fst kv')) eqn:E.
    + constructor; [constructor; assumption|]. constructor; [exact E|].
      eapply Forall_impl; [|exact Hall]. intros a Ha. eapply string_leb_trans; eassumption.
    + constructor; [exact IH|].
      apply (Permutation_Forall (Permutation_sym (insert_item_perm kv l))).
      constructor; [|exact Hall].
      destruct (String.leb_total (fst kv) (fst kv')) as [H|H]; [congruence|exact H].
Qed.

Lemma sorted_items_sorted (d : pydict) : StronglySorted key_le (sorted_items d).
Proof.
  unfold sorted_items. induction d as [|kv d IH]; simpl; [constructor|].
  apply insert_item_sorted, IH.
Qed.

Lemma in_key_eq (l : pydict) (a b : string * pyval) :
  NoDup (map fst l) -> In a l -> In b l -> fst a = fst b -> a = b.
Proof.
  induction l as [|c l IH]; simpl; [tauto|].
  intros Hnd. inversion Hnd as [|? ? Hc Hnd']; subst.
  intros [<-|Ha] [<-|Hb] Hk; auto.
  - exfalso. apply Hc. rewrite Hk. apply in_map, Hb.
  - exfalso. apply Hc. rewrite <- Hk. apply in_map, Ha.
Qed.

Lemma sorted_perm_eq (l1 l2 : pydict) :
  StronglySorted key_le l1 -> StronglySorted key_le l2 ->
  NoDup (map fst l1) -> Permutation l1 l2 -> l1 = l2.
Proof.
  revert l2. induction l1 as [|a l1 IH]; intros l2 Hs1 Hs2 Hnd Hp.
  - apply Permutation_nil in Hp. congruence.
  - destruct l2 as [|b l2]; [apply Permutation_sym, Permutation_nil in Hp; discriminate|].
    inversion Hs1 as [|? ? Hs1' Ha1]; subst. inversion Hs2 as [|? ? Hs2' Hb2]; subst.
    assert (Hab : a = b).
    { assert (Hb1 : In b (a :: l1)) by (apply (Permutation_in _ (Permutation_sym Hp)); left; reflexivity).
      assert (Ha2 : In a (b :: l2)) by (apply (Permutation_in _ Hp); left; reflexivity).
      destruct Hb1 as [|Hb1]; [congruence|]. destruct Ha2 as [|Ha2]; [congruence|].
      rewrite Forall_forall in Ha1, Hb2.
      apply (in_key_eq (a :: l1)); [exact Hnd|left; reflexivity|right; exact Hb1|].
      apply String.leb_antisym; [apply Ha1, Hb1|apply Hb2, Ha2]. }
    subst b. f_equal. apply IH; auto.
    + inversion Hnd; assumption.
    + apply Permutation_cons_inv in Hp. exact Hp.
Qed.

Lemma dict_find_in_iff (d : pydict) (k : string) (v : pyval) :
  NoDup (map fst d) -> dict_find d k = Some v <-> In (k, v) d.
Proof.
  induction d as [|[k' v'] d IH]; simpl; intros Hnd; [split; [discriminate|tauto]|].
  inversion Hnd as [|? ? Hk Hnd']; subst.
  destruct (String.eqb_spec k k') as [->|Hne].
  - split; [intros [= ->]; auto|intros [[= ->]|Hin]; [reflexivity|]].
    exfalso. apply Hk. change k' with (fst (k', v)). apply in_map, Hin.
  - rewrite IH by exact Hnd'. split; [auto|intros [[= ->]|Hin]; [congruence|exact Hin]].
Qed.

Lemma dict_find_perm (d d' : pydict) (k : string) :
  NoDup (map fst d) -> Permutation d d' -> dict_find d k = dict_find d' k.
Proof.
  intros Hnd Hp.
  assert (Hnd' : NoDup (map fst d')) by (eapply Permutation_NoDup; [apply Permutation_map, Hp|exact Hnd]).
  destruct (dict_find d k) as [v|] eqn:E.
  - symmetry. apply dict_find_in_iff; [exact Hnd'|]. apply (Permutation_in _ Hp).
    apply dict_find_in_iff; assumption.
  - destruct (dict_find d' k) as [v'|] eqn:E'; [|reflexivity].
    apply dict_find_in_iff in E'; [|exact Hnd']. apply (Permutation_in _ (Permutation_sym Hp)) in E'.
    apply dict_find_in_iff in E'; [congruence|exact Hnd].
Qed.

Lemma dict_pop_perm (d d' : pydict) (k : string) :
  Permutation d d' -> Permutation (dict_pop d k) (dict_pop d' k).
Proof.
  unfold dict_pop. induction 1; simpl.
  - constructor.
  - destruct (negb _); [constructor|]; assumption.
  - do 2 destruct (negb (String.eqb _ k)); try constructor; reflexivity.
  - etransitivity; eassumption.
Qed.

Lemma dict_pop_nodup (d : pydict) (k : string) :
  NoDup (map fst d) -> NoDup (map fst (dict_pop d k)).
Proof.
  unfold dict_pop. induction d as [|[k' v] d IH]; simpl; intros Hnd; [constructor|].
  inversion Hnd as [|? ? Hk Hnd']; subst.
  destruct (negb _); simpl; [|apply IH, Hnd'].
  constructor; [|apply IH, Hnd'].
  intros Hin. apply Hk. apply in_map_iff in Hin as ([k0 v0] & Hk0 & Hin).
  apply filter_In in Hin. cbn in Hk0. subst k0. apply in_map_iff. exists (k', v0). split; [reflexivity|apply Hin].
Qed.

Lemma dict_setdefault_perm (d d' : pydict) (k : string) (v : pyval) :
  NoDup (map fst d) -> Permutation d d' ->
  Permutation (dict_setdefault d k v) (dict_setdefault d' k v).
Proof.
  intros Hnd Hp. unfold dict_setdefault. rewrite <- (dict_find_perm d d' k Hnd Hp).
  destruct (dict_find d k); [exact Hp|]. apply Permutation_app_tail, Hp.
Qed.

Lemma dict_setdefault_nodup (d : pydict) (k : string) (v : pyval) :
  NoDup (map fst d) -> NoDup (map fst (dict_setdefault d k v)).
Proof.
  intros Hnd. unfold dict_setdefault. destruct (dict_find d k) eqn:E; [exact Hnd|].
  rewrite map_app. cbn. apply NoDup_app; [exact Hnd|repeat constructor; simpl; tauto|].
  intros x Hx [<-|[]]. revert Hx. clear Hnd. induction d as [|[k' v'] d IH]; simpl in *; [tauto|].
  destruct (String.eqb_spec k k'); [discriminate|]. intros [Hx|Hx]; [congruence|exact (IH E Hx)].
Qed.

Lemma sorted_items_perm_eq (d d' : pydict) :
  NoDup (map fst d) -> Permutation d d' -> sorted_items d = sorted_items d'.
Proof.
  intros Hnd Hp. apply sorted_perm_eq; try apply sorted_items_sorted.
  - eapply Permutation_NoDup; [apply Permutation_map, Permutation_sym, sorted_items_perm|exact Hnd].
  - rewrite sorted_items_perm, Hp, sorted_items_perm. reflexivity.
Qed.

(** [GenerateCall.generation_mode] depends only on the entries of the
    call's kwargs, not on their insertion order (the key arguments are
    sorted before they are joined), so such calls are batched together. *)
Theorem generation_mode_order_independent (c c' : GenerateCall)
  (Hnd : NoDup (map fst (kwargs c))) (Hp : Permutation (kwargs c) (kwargs c')) :
  generation_mode c = generation_mode c'.
Proof.
  unfold generation_mode, dict_get. rewrite (dict_find_perm _ _ "score" Hnd Hp).
  destruct (truthy _); [reflexivity|].
  f_equal. f_equal. f_equal. apply sorted_items_perm_eq.
  - apply dict_setdefault_nodup. repeat apply dict_pop_nodup. exact Hnd.
  - apply dict_setdefault_perm; [repeat apply dict_pop_nodup; exact Hnd|].
    repeat apply dict_pop_perm. exact Hp.
Qed.

Lemma dict_pop_set_same (d : pydict) (k : string) (v : pyval) :
  dict_pop (dict_set d k v) k = dict_pop d k.
Proof.
  unfold dict_pop. induction d as [|[k0 v0] d IH]; simpl.
  - rewrite String.eqb_refl. reflexivity.
  - destruct (String.eqb_spec k k0) as [->|Hne]; simpl.
    + rewrite String.eqb_refl. reflexivity.
    + destruct (String.eqb k0 k); simpl; [exact IH|rewrite IH; reflexivity].
Qed.

Lemma dict_pop_set_other (d : pydict) (k k' : string) (v : pyval) :
  k <> k' -> dict_pop (dict_set d k v) k' = dict_set (dict_pop d k') k v.
Proof.
  intros Hne. unfold dict_pop. induction d as [|[k0 v0] d IH]; simpl.
  - apply String.eqb_neq in Hne. rewrite Hne. reflexivity.
  - destruct (String.eqb_spec k k0) as [->|Hne0]; simpl.
    + apply String.eqb_neq in Hne. rewrite Hne. simpl. rewrite String.eqb_refl. reflexivity.
    + destruct (String.eqb_spec k0 k') as [->|Hne']; simpl.
      * exact IH.
      * apply String.eqb_neq in Hne0. rewrite Hne0. rewrite IH. reflexivity.
Qed.

Lemma dict_set_absent (d : pydict) (k : string) (v : pyval) :
  dict_find d k = None -> dict_set d k v = (d ++ [(k, v)])%list.
Proof.
  induction d as [|[k0 v0] d IH]; simpl; [reflexivity|].
  destruct (String.eqb k k0); [discriminate|]. intros H. rewrite IH by exact H. reflexivity.
Qed.

Lemma dict_find_pop_other (d : pydict) (k k' : string) :
  k <> k' -> dict_find (dict_pop d k') k = dict_find d k.
Proof.
  intros Hne. unfold dict_pop. induction d as [|[k0 v] d IH]; simpl; [reflexivity|].
  destruct (String.eqb_spec k0 k') as [->|Hne']; simpl.
  - apply String.eqb_neq in Hne. rewrite Hne. exact IH.
  - destruct (String.eqb k k0); [reflexivity|exact IH].
Qed.

Lemma dict_find_app_absent (d : pydict) (k : string) (kv : string * pyval) :
  dict_find d k = None -> dict_find (d ++ [kv])%list k = dict_find [kv] k.
Proof.
  induction d as [|[k0 v0] d IH]; simpl; [reflexivity|].
  destruct (String.eqb k k0); [discriminate|exact IH].
Qed.

Lemma dict_pop_app_other (d : pydict) (k k' : string) (v : pyval) :
  k <> k' -> dict_pop (d ++ [(k, v)])%list k' = (dict_pop d k' ++ [(k, v)])%list.
Proof.
  intros Hne. unfold dict_pop. rewrite filter_app. cbn [filter fst].
  apply String.eqb_neq in Hne. rewrite Hne. reflexivity.
Qed.

(** Setting a call's [max_tokens] or [top_logprobs], or giving it an
    explicit [temperature] of 0.0 when it has none, does not change its
    [generation_mode]: such calls are batched together. *)
Theorem generation_mode_ignores_limits (c c' : GenerateCall) (k : string) (v : pyval)
  (Hk : k = "max_tokens" \/ k = "top_logprobs" \/
        (k = "temperature" /\ v = VFloat 0 1 /\ dict_find (kwargs c) "temperature" = None))
  (Hc' : kwargs c' = dict_set (kwargs c) k v) :
  generation_mode c = generation_mode c'.
Proof.
  unfold generation_mode, dict_get. rewrite Hc'.
  destruct Hk as [->|[->|(-> & -> & Ht)]].
  - rewrite dict_find_set_other by discriminate. rewrite dict_pop_set_same. reflexivity.
  - rewrite dict_find_set_other by discriminate.
    rewrite dict_pop_set_other by discriminate. rewrite dict_pop_set_same. reflexivity.
  - rewrite dict_find_set_other by discriminate.
    destruct (truthy _); [reflexivity|].
    rewrite (dict_set_absent _ _ _ Ht).
    rewrite !dict_pop_app_other by discriminate.
    set (d := dict_pop (dict_pop (kwargs c) "max_tokens") "top_logprobs").
    assert (Hd : dict_find d "temperature" = None).
    { unfold d. rewrite !dict_find_pop_other by discriminate. exact Ht. }
    unfold dict_setdefault. rewrite Hd. rewrite dict_find_app_absent by exact Hd.
    reflexivity.
Qed.

(** ** Witnesses of the further properties *)

Lemma batches_shape_witness :
  let ca := mkGenerateCall [1]%Z None [] 1 0 false in
  let cb := mkGenerateCall [2]%Z None [("temperature", VFloat 7 1)] 2 0 false in
  let cc := mkGenerateCall [3]%Z None [] 3 0 false in
  exists bs, batches 2 [ca; cb; cc] = Ok bs /\ List.length [ca; cc] <= 2.
Proof.
  intros ca cb cc. eexists. split; [vm_compute; reflexivity|].
  refine (proj1 (proj2 (batches_shape 2 [ca; cb; cc] _ ltac:(lia) _ [ca; cc] _))).
  - vm_compute. reflexivity.
  - vm_compute. left. reflexivity.
Defined.

Lemma batches_fifo_witness :
  let ca := mkGenerateCall [1]%Z None [] 1 0 false in
  let cb := mkGenerateCall [2]%Z None [("temperature", VFloat 7 1)] 2 0 false in
  let cc := mkGenerateCall [3]%Z None [] 3 0 false in
  exists bs, batches 1 [ca; cb; cc] = Ok bs /\
    List.concat (filter (head_mode_is (generation_mode ca)) bs) =
    filter (fun c => String.eqb (generation_mode c) (generation_mode ca)) [ca; cb; cc].
Proof.
  intros ca cb cc. eexists. split; [vm_compute; reflexivity|].
  apply (batches_fifo 1 [ca; cb; cc] _ (generation_mode ca) ltac:(lia)).
  vm_compute. reflexivity.
Defined.

Lemma batches_from_calls_only_type_errors_witness :
  let cx := mkGenerateCall [1]%Z None [("max_tokens", VStr "many")] 1 0 false in
  let cy := mkGenerateCall [2]%Z None [("max_tokens", VInt 5)] 2 0 false in
  exists bs, batches 2 [cx; cy] = Ok bs /\ from_calls [cx; cy] = Err TypeError /\ TypeError = TypeError.
Proof.
  intros cx cy. eexists. split; [vm_compute; reflexivity|]. split; [vm_compute; reflexivity|].
  apply (batches_from_calls_only_type_errors 2 [cx; cy] [[cx; cy]] [cx; cy] TypeError ltac:(lia)).
  - vm_compute. reflexivity.
  - left. reflexivity.
  - vm_compute. reflexivity.
Defined.

Lemma process_batch_zero_max_batch_size_witness :
  let model := mkBackend 0 0 true (fun _ _ => Ok []) (fun _ => ([], GenRaise (BackendError "x"))) in
  max_batch_size model = 0 /\
  process_batch model [mkGenerateCall [1]%Z None [] 1 0 false] =
    Err (ValueError "range() arg 3 must not be zero").
Proof.
  intros model. split; [reflexivity|].
  exact (process_batch_zero_max_batch_size model [mkGenerateCall [1]%Z None [] 1 0 false] eq_refl).
Defined.

Lemma generate_args_find_witness :
  let b := mkGenerateBatch [[1]]%Z [[1]]%Z (VFloat 0 1) (VInt 32) [] [] false None [("top_k", VInt 5)] in
  NoDup (map fst (batch_kwargs b)) /\
  adict_find (generate_args b) "top_k" = Some (APy (VInt 5)).
Proof.
  intros b. split; [simpl; constructor; [intros []|constructor]|].
  apply (generate_args_find b "top_k"). simpl. constructor; [intros []|constructor].
Defined.

Lemma from_calls_generate_args_witness :
  let c0 := mkGenerateCall [1]%Z (Some [(4, 1)]%Z) [("temperature", VFloat 7 1); ("top_k", VInt 5)] 1 0 false in
  exists b, from_calls [c0] = Ok b /\
    adict_find (generate_args b) "temperature" = Some (APy (VFloat 7 1)).
Proof.
  intros c0. eexists. split; [vm_compute; reflexivity|].
  refine (proj1 (from_calls_generate_args c0 [] _ _ _)).
  - vm_compute. reflexivity.
  - simpl. constructor; [intros [H|[]]; discriminate H|constructor; [intros []|constructor]].
Defined.

Lemma measure_token_window_witness :
  exists st', measure_token init_stats 3 (fun _ => QArith_base.inject_Z 0) = Ok st' /\
    List.length (last_batch_sizes st') <= 100.
Proof.
  destruct (measure_token_window init_stats 3 (fun _ => QArith_base.inject_Z 0) eq_refl ltac:(simpl; lia))
    as (st' & H1 & _ & _ & H4 & _).
  exists st'. split; [exact H1|exact H4].
Defined.

Lemma from_calls_max_tokens_witness :
  let ca := mkGenerateCall [1]%Z None [("max_tokens", VInt 5)] 1 0 false in
  let cb := mkGenerateCall [2]%Z None [("max_tokens", VFloat 645 1)] 2 0 false in
  exists b, from_calls [ca; cb] = Ok b /\ max_tokens b = VFloat 645 1 /\
    py_gt (VInt 5) (max_tokens b) = Ok false.
Proof.
  intros ca cb. eexists. split; [vm_compute; reflexivity|]. split; [reflexivity|].
  apply (proj2 (proj2 (from_calls_max_tokens [ca; cb] _ eq_refl)) ltac:(simpl; lia)).
  left. reflexivity.
Defined.

Lemma gc_consistent_witness :
  let r := [(registry_key "m" (Some []), mkScheduler "m" [] false [] [] 0 false)] in
  reg_wf r = true /\ reg_wf (fst (gc 0 r)) = true.
Proof.
  intros r. split; [vm_compute; reflexivity|].
  apply (proj1 (gc_consistent 0 r ltac:(vm_compute; reflexivity))).
Defined.

Lemma instance_consistent_witness :
  exists r' res, instance [] "m" (Some []) (Some 7) false false 0 = (r', res) /\ reg_wf r' = true.
Proof.
  eexists _, _. split; [vm_compute; reflexivity|].
  refine (proj1 (instance_consistent [] "m" [] (Some 7) false false 0 _ _ eq_refl _)).
  vm_compute. reflexivity.
Defined.


Lemma gc_none_args_key_error_witness :
  let s := new_scheduler "m" None false 0 in
  gc 1 [(registry_key "m" None, s)] = ([(registry_key "m" None, s)], Some KeyError).
Proof.
  intros s. apply (gc_none_args_key_error 1 _ "m" s).
  - vm_compute. reflexivity.
  - exists [], []. split; reflexivity.
  - reflexivity.
  - reflexivity.
  - reflexivity.
  - vm_compute. reflexivity.
  - simpl. lia.
Defined.

Lemma instance_none_args_key_error_witness :
  let s := new_scheduler "m" None false 0 in
  snd (instance [(registry_key "m" None, s)] "n" (Some []) (Some 7) false false 0) = Err KeyError.
Proof.
  intros s.
  destruct (instance_none_args_key_error [(registry_key "m" None, s)] "m" s "n" (Some []) (Some 7)
              false false 0) as [[H _]|(H & _)].
  - vm_compute. reflexivity.
  - exists [], []. split; reflexivity.
  - reflexivity.
  - reflexivity.
  - reflexivity.
  - vm_compute. reflexivity.
  - unfold registry_key. intros H. injection H as H _. discriminate H.
  - unfold registry_key. intros H. injection H as H _. discriminate H.
  - exact H.
  - discriminate H.
Defined.

Lemma token_log_token_one_per_row_witness :
  let c := mkGenerateCall [1]%Z None [] 10 0 false in
  let b := mkGenerateBatch [[1]]%Z [[1]]%Z (VFloat 0 1) (VInt 32) [] [c] false None [] in
  snd (token_log_token b 0 true [[1; 2]]%Z [[[0; -1; -2]]]%Z false) = None /\
  List.length (fst (token_log_token b 0 true [[1; 2]]%Z [[[0; -1; -2]]]%Z false)) = 1.
Proof.
  intros c b. split; [vm_compute; reflexivity|].
  refine (eq_sym (Forall2_length (token_log_token_one_per_row b 0 true [[1; 2]]%Z [[[0; -1; -2]]]%Z false _))).
  vm_compute. reflexivity.
Defined.

Lemma generation_mode_order_independent_witness :
  let c := mkGenerateCall [1]%Z None [("top_k", VInt 5); ("temperature", VFloat 7 1)] 1 0 false in
  let c' := mkGenerateCall [2]%Z None [("temperature", VFloat 7 1); ("top_k", VInt 5)] 2 0 false in
  generation_mode c = generation_mode c'.
Proof.
  intros c c'. apply generation_mode_order_independent.
  - simpl. constructor; [intros [H|[]]; discriminate H|constructor; [intros []|constructor]].
  - simpl. apply perm_swap.
Defined.

Lemma generation_mode_ignores_limits_witness :
  let c := mkGenerateCall [1]%Z None [("top_k", VInt 5)] 1 0 false in
  let c' := mkGenerateCall [1]%Z None [("top_k", VInt 5); ("max_tokens", VInt 64)] 1 0 false in
  generation_mode c = generation_mode c'.
Proof.
  intros c c'. apply (generation_mode_ignores_limits c c' "max_tokens" (VInt 64)).
  - left. reflexivity.
  - reflexivity.
Defined.
